(** * The ldoc launcher: a model of [ldoc.cpp] and of its build-time
      conversion script, with the properties of its specification.

    The launcher is a short C++ [main] that drives a Lua runtime through the
    Lua C API.  Two variants exist: one runs the payload script from disk
    ([luaL_dofile]), the other one compiles a byte array generated at build
    time ([luaL_loadbuffer]).  The model keeps the structure of the source:

    - Lua strings are byte strings, here [list ascii];
    - the Lua pattern matcher ([string.gsub]) is embedded for the fragment
      of patterns that the injected bridge routine uses;
    - Lua tables with integer keys are [gmap Z lstring];
    - the Lua C API calls are steps of a state-and-error monad over the
      Lua stack and globals;
    - what the outside world decides (whether the executable path resolves,
      whether a chunk compiles, whether the payload raises) is read from a
      [world] record. *)

From Stdlib Require Import ZArith Ascii String List Lia.
From stdpp Require Import base option list gmap strings.

Local Open Scope Z_scope.

(** ** Lua strings *)

Module LuaString.

Abbreviation lstring := (list ascii).

Definition str (s : string) : lstring := list_ascii_of_string s.
Arguments str s%_string.

(** The line feed character, written [\n] in the source. *)
Definition LF : ascii := ascii_of_nat 10.

(** The backslash, written ["\\"] in the Lua source of the bridge routine:
    the only path separator that the routine knows. *)
Definition sep : ascii := "\"%char.

(** The separator of [package.path] entries, [";"] in the source. *)
Definition path_sep : ascii := ";"%char.

(** *** Patterns

    [lstrlib.c] of the Lua distribution, restricted to the pattern syntax
    that occurs in the launcher: an optional leading [^], a sequence of
    literal characters each optionally followed by [+], and an optional
    trailing [$]. *)

Inductive pitem :=
| Single (c : ascii)
| Plus (c : ascii).

Record pattern := {
  anchor : bool;
  body : list pitem;
  eos : bool
}.

(** Characters with a special meaning in a Lua pattern.  A pattern that uses
    one of them in the place of a literal lies outside of the fragment. *)
Definition is_magic (c : ascii) : bool :=
  existsb (Ascii.eqb c) (str "^$()%.[]*+-?").

Fixpoint parse_items (p : lstring) : option (list pitem * bool) :=
  match p with
  | [] => Some ([], false)
  | c :: rest =>
      if Ascii.eqb c "$" && bool_decide (rest = []) then Some ([], true)
      else if is_magic c then None
      else match rest with
           | q :: rest' =>
               if Ascii.eqb q "+" then
                 match parse_items rest' with
                 | Some (items, e) => Some (Plus c :: items, e)
                 | None => None
                 end
               else
                 match parse_items rest with
                 | Some (items, e) => Some (Single c :: items, e)
                 | None => None
                 end
           | [] => Some ([Single c], false)
           end
  end.

Definition parse_pattern (p : lstring) : option pattern :=
  match p with
  | c :: rest =>
      if Ascii.eqb c "^" then
        match parse_items rest with
        | Some (items, e) => Some {| anchor := true; body := items; eos := e |}
        | None => None
        end
      else
        match parse_items p with
        | Some (items, e) => Some {| anchor := false; body := items; eos := e |}
        | None => None
        end
  | [] => Some {| anchor := false; body := []; eos := false |}
  end.

(** [max_expand]: the greedy repetition of [lstrlib.c].  The C code counts
    the longest run of [c] and then tries the rest of the pattern after
    [i], [i-1], ..., [0] repetitions; the recursion below tries the longer
    runs first in the same order.  [k] matches the rest of the pattern and
    returns the unmatched remainder of the subject. *)
Fixpoint max_expand (k : lstring -> option lstring) (c : ascii) (s : lstring)
  : option lstring :=
  match s with
  | c' :: s' =>
      if Ascii.eqb c' c then
        match max_expand k c s' with
        | Some e => Some e
        | None => k s
        end
      else k s
  | [] => k s
  end.

(** [do_match items eos s]: match at the start of [s]; the result is the
    part of the subject after the end of the match (the pointer [e] of the
    C code). *)
Fixpoint do_match (items : list pitem) (eos : bool) (s : lstring)
  : option lstring :=
  match items with
  | [] =>
      if eos then match s with [] => Some [] | _ :: _ => None end
      else Some s
  | Single c :: items' =>
      match s with
      | c' :: s' => if Ascii.eqb c' c then do_match items' eos s' else None
      | [] => None
      end
  | Plus c :: items' =>
      match s with
      | c' :: s' =>
          if Ascii.eqb c' c then max_expand (do_match items' eos) c s'
          else None
      | [] => None
      end
  end.

(** [str_gsub] of Lua 5.4 with a replacement string without captures (the
    earlier versions differ on empty matches only, which the patterns of the
    launcher do not have).  A position in the subject is identified with
    the length of what follows it, so [lastmatch] holds the length of the
    remainder at the end of the last match.  The loop of the C code runs at
    most twice per position, which bounds [fuel]. *)
Fixpoint gsub_loop (fuel : nat) (p : pattern) (repl src : lstring)
    (lastmatch : option nat) : option (lstring * Z) :=
  match fuel with
  | O => None
  | S fuel' =>
      let continue (out src' : lstring) (lm : option nat) (n : Z) :=
        if anchor p then Some (out ++ src', n)
        else match gsub_loop fuel' p repl src' lm with
             | Some (rest, m) => Some (out ++ rest, n + m)
             | None => None
             end in
      let skip :=
        match src with
        | c :: src' => continue [c] src' lastmatch 0
        | [] => Some ([], 0)
        end in
      match do_match (body p) (eos p) src with
      | Some e =>
          if bool_decide (lastmatch = Some (length e)) then skip
          else continue repl e (Some (length e)) 1
      | None => skip
      end
  end.

(** [s:gsub(pat, repl)] returns the new string and the number of
    substitutions; [None] stands for a pattern outside of the fragment. *)
Definition gsub (s pat repl : lstring) : option (lstring * Z) :=
  match parse_pattern pat with
  | Some p => gsub_loop (2 * length s + 2) p repl s None
  | None => None
  end.

(** [table.concat(list, sep)] on a sequence: every element but the last one
    is followed by the separator. *)
Fixpoint table_concat (l : list lstring) (sp : lstring) : lstring :=
  match l with
  | [] => []
  | x :: rest =>
      match rest with
      | [] => x
      | _ :: _ => x ++ sp ++ table_concat rest sp
      end
  end.

End LuaString.

Import LuaString.

(** ** The Lua runtime, as far as the launcher drives it *)

Module Lua.

(** A compiled chunk is known by where it came from. *)
Inductive chunk :=
| SetPathsChunk                    (* the injected source text [setPaths] *)
| FileChunk (path : lstring)       (* [luaL_loadfile] *)
| BufferChunk (bytes : lstring).   (* [luaL_loadbuffer] *)

Inductive closure :=
| SetPathsFn                       (* the Lua function [setPaths] *)
| ChunkFn (c : chunk).

(** The tables that the launcher builds hold strings under integer keys. *)
Inductive value :=
| VNil
| VString (s : lstring)
| VTable (t : gmap Z lstring)
| VFunction (f : closure).

(** [stack]: the top of the stack is the head of the list.
    [package_path], [package_cpath]: the fields [package.path] and
    [package.cpath]. *)
Record lua_State := {
  stack : list value;
  globals : gmap string value;
  package_path : lstring;
  package_cpath : lstring
}.

Inductive payload_outcome :=
| PayloadOk
| PayloadSyntaxError (msg : lstring)   (* the chunk does not load *)
| PayloadRuntimeError (msg : lstring). (* the chunk loads and raises *)

(** What the launcher cannot decide by itself.
    - [install_prefix]: [None] when [GetModuleFileNameW] fails, otherwise
      the UTF-8 text left after both calls of [PathCchRemoveFileSpec];
    - [newstate]: whether [luaL_newstate] returns a state;
    - [default_path], [default_cpath]: what [luaL_openlibs] leaves in
      [package.path] and [package.cpath];
    - [define_error]: the error of loading the injected chunk, if any;
    - [bridge_fault]: a runtime-level error raised inside a call of the
      bridge routine, if any;
    - [fault_after_path]: whether that error is raised after the routine
      has assigned [package.path] (the lines that build [fullCpaths]
      allocate as well) or before;
    - [payload]: how the payload script behaves. *)
Record world := {
  install_prefix : option lstring;
  newstate : bool;
  default_path : lstring;
  default_cpath : lstring;
  define_error : option lstring;
  bridge_fault : option lstring;
  fault_after_path : bool;
  payload : payload_outcome
}.

Inductive event :=
| EvNewState
| EvStderr (line : lstring)
| EvLoadPayload (c : chunk) (st : lua_State)
| EvRunPayload
| EvClose.

Record machine := {
  lua : lua_State;
  trace : list event
}.

(** State and error: [None] is a use of the C API outside of its contract
    (a wrong stack index, a value of the wrong type). *)
Definition M (A : Type) : Type := machine -> option (A * machine).

#[export] Instance M_ret : MRet M := fun A a m => Some (a, m).
#[export] Instance M_bind : MBind M := fun A B f c m =>
  match c m with
  | Some (a, m') => f a m'
  | None => None
  end.

Definition get_lua : M lua_State := fun m => Some (lua m, m).
Definition put_lua (st : lua_State) : M unit :=
  fun m => Some (tt, {| lua := st; trace := trace m |}).
Definition emit (e : event) : M unit :=
  fun m => Some (tt, {| lua := lua m; trace := trace m ++ [e] |}).
Definition fail {A} : M A := fun _ => None.

Definition set_stack (st : lua_State) (s : list value) : lua_State :=
  {| stack := s; globals := globals st;
     package_path := package_path st; package_cpath := package_cpath st |}.

Definition push (v : value) : M unit :=
  st ← get_lua; put_lua (set_stack st (v :: stack st)).

Definition LUA_OK : Z := 0.
Definition LUA_ERRRUN : Z := 2.
Definition LUA_ERRSYNTAX : Z := 3.
Definition LUA_MULTRET : Z := -1.

(** *** The bridge routine, [function setPaths(basePath,paths,cpaths)] *)

(** [ipairs(t)]: the values under 1, 2, ... up to the first absent key.  No
    more than [size t] keys can be present. *)
Fixpoint ipairs_from (fuel : nat) (t : gmap Z lstring) (i : Z) : list lstring :=
  match fuel with
  | O => []
  | S fuel' =>
      match t !! i with
      | Some v => v :: ipairs_from fuel' t (i + 1)
      | None => []
      end
  end.

Definition ipairs (t : gmap Z lstring) : list lstring :=
  ipairs_from (size t) t 1.

(** [cleanBasePath.."\\"..((v:gsub("^\\+", "")):gsub("\\+$", ""))] *)
Definition full_entry (cleanBasePath v : lstring) : option lstring :=
  match gsub v (str "^\+") [] with
  | Some (v1, _) =>
      match gsub v1 (str "\+$") [] with
      | Some (v2, _) => Some (cleanBasePath ++ [sep] ++ v2)
      | None => None
      end
  | None => None
  end.

(** The loop [for _,v in ipairs(paths) do table.insert(fullPaths, ...) end]
    on the fresh local table [fullPaths], kept as the list of its values
    1..n: [table.insert] appends at the end. *)
Fixpoint insert_all (cleanBasePath : lstring) (vs : list lstring)
    (fullPaths : list lstring) : option (list lstring) :=
  match vs with
  | [] => Some fullPaths
  | v :: vs' =>
      match full_entry cleanBasePath v with
      | Some e => insert_all cleanBasePath vs' (fullPaths ++ [e])
      | None => None
      end
  end.

(** The result is the pair of the new [package.path] and [package.cpath]. *)
Definition setPaths (basePath : lstring) (paths cpaths : gmap Z lstring)
  : option (lstring * lstring) :=
  match gsub basePath (str "\+$") [] with
  | Some (cleanBasePath, _) =>
      match insert_all cleanBasePath (ipairs paths) [] with
      | Some fullPaths =>
          let path := table_concat fullPaths [path_sep] in
          match insert_all cleanBasePath (ipairs cpaths) [] with
          | Some fullCpaths =>
              let cpath := table_concat fullCpaths [path_sep] in
              Some (path, cpath)
          | None => None
          end
      | None => None
      end
  | None => None
  end.

(** *** The C API *)

Definition luaL_newstate (w : world) : option lua_State :=
  if newstate w then
    Some {| stack := []; globals := ∅; package_path := []; package_cpath := [] |}
  else None.

Definition luaL_openlibs (w : world) : M unit :=
  st ← get_lua;
  put_lua {| stack := stack st; globals := globals st;
             package_path := default_path w;
             package_cpath := default_cpath w |}.

Definition lua_newtable : M unit := push (VTable ∅).

Definition lua_pushstring (s : lstring) : M unit := push (VString s).

(** The position, counted from the top, of an acceptable stack index. *)
Definition stack_pos (s : list value) (idx : Z) : option nat :=
  if (idx <? 0) && (- idx <=? Z.of_nat (length s)) then
    Some (Z.to_nat (- idx - 1))
  else if (0 <? idx) && (idx <=? Z.of_nat (length s)) then
    Some (length s - Z.to_nat idx)%nat
  else None.

(** [t[n] = v] for the table [t] at [idx] and the value [v] on the top,
    which is popped. *)
Definition lua_rawseti (idx : Z) (n : Z) : M unit :=
  st ← get_lua;
  match stack_pos (stack st) idx, stack st with
  | Some (S k), VString v :: below =>
      match below !! k with
      | Some (VTable t) =>
          put_lua (set_stack st (<[k := VTable (<[n := v]> t)]> below))
      | _ => fail
      end
  | _, _ => fail
  end.

Definition lua_setglobal (name : string) : M unit :=
  st ← get_lua;
  match stack st with
  | v :: below =>
      put_lua {| stack := below; globals := <[name := v]> (globals st);
                 package_path := package_path st;
                 package_cpath := package_cpath st |}
  | [] => fail
  end.

Definition lua_getglobal (name : string) : M unit :=
  st ← get_lua; push (default VNil (globals st !! name)).

(** [lua_tostring] on a value that is not a string returns [NULL], which
    [fprintf] must not receive for [%s]. *)
Definition lua_tostring (idx : Z) : M lstring :=
  st ← get_lua;
  match stack_pos (stack st) idx with
  | Some k =>
      match stack st !! k with
      | Some (VString s) => mret s
      | _ => fail
      end
  | None => fail
  end.

(** An error of a protected call: the message replaces the function and
    its arguments on the stack. *)
Definition raise (below : list value) (msg : lstring) : M Z :=
  st ← get_lua; put_lua (set_stack st (VString msg :: below));; mret LUA_ERRRUN.

(** The call of a function value with its arguments (first argument
    first); results are not modelled, none of the callers uses them.  An
    error raised inside the bridge routine interrupts it: before it has
    assigned anything, or between its two assignments, in which case
    [package.path] is already the new one. *)
Definition call (w : world) (f : value) (args below : list value) : M Z :=
  st ← get_lua;
  match f with
  | VFunction SetPathsFn =>
      match args with
      | [VString basePath; VTable paths; VTable cpaths] =>
          match setPaths basePath paths cpaths with
          | Some (path, cpath) =>
              match bridge_fault w with
              | Some msg =>
                  put_lua {| stack := stack st; globals := globals st;
                             package_path :=
                               if fault_after_path w then path
                               else package_path st;
                             package_cpath := package_cpath st |};;
                  raise below msg
              | None =>
                  put_lua {| stack := below; globals := globals st;
                             package_path := path; package_cpath := cpath |};;
                  mret LUA_OK
              end
          | None => fail
          end
      | _ => fail
      end
  | VFunction (ChunkFn SetPathsChunk) =>
      put_lua {| stack := below;
                 globals := <["setPaths"%string := VFunction SetPathsFn]> (globals st);
                 package_path := package_path st;
                 package_cpath := package_cpath st |};;
      mret LUA_OK
  | VFunction (ChunkFn _) =>
      emit EvRunPayload;;
      match payload w with
      | PayloadRuntimeError msg => raise below msg
      | _ => put_lua (set_stack st below);; mret LUA_OK
      end
  | VNil => raise below (str "attempt to call a nil value")
  | _ => fail
  end.

Definition lua_pcall (w : world) (nargs nresults msgh : Z) : M Z :=
  st ← get_lua;
  let n := Z.to_nat nargs in
  match drop n (stack st) with
  | f :: below => call w f (rev (take n (stack st))) below
  | [] => fail
  end.

(** Loading pushes the compiled chunk, or the error message. *)
Definition load (c : chunk) (err : option lstring) : M Z :=
  match err with
  | None => push (VFunction (ChunkFn c));; mret LUA_OK
  | Some msg => push (VString msg);; mret LUA_ERRSYNTAX
  end.

Definition payload_load_error (w : world) : option lstring :=
  match payload w with
  | PayloadSyntaxError msg => Some msg
  | _ => None
  end.

Definition load_payload (w : world) (c : chunk) : M Z :=
  st ← get_lua; emit (EvLoadPayload c st);; load c (payload_load_error w).

Definition luaL_loadstring_setPaths (w : world) : M Z :=
  load SetPathsChunk (define_error w).

Definition luaL_loadfile (w : world) (filename : lstring) : M Z :=
  load_payload w (FileChunk filename).

(** The chunk is made of the first [sz] bytes of [buff]. *)
Definition luaL_loadbuffer (w : world) (buff : lstring) (sz : nat)
    (name : lstring) : M Z :=
  load_payload w (BufferChunk (take sz buff)).

(** [(luaL_loadstring(L, s) || lua_pcall(L, 0, LUA_MULTRET, 0))] *)
Definition luaL_dostring_setPaths (w : world) : M Z :=
  r ← luaL_loadstring_setPaths w;
  if bool_decide (r ≠ 0) then mret 1
  else r' ← lua_pcall w 0 LUA_MULTRET 0;
       mret (if bool_decide (r' ≠ 0) then 1 else 0).

(** [(luaL_loadfile(L, fn) || lua_pcall(L, 0, LUA_MULTRET, 0))] *)
Definition luaL_dofile (w : world) (fn : lstring) : M Z :=
  r ← luaL_loadfile w fn;
  if bool_decide (r ≠ 0) then mret 1
  else r' ← lua_pcall w 0 LUA_MULTRET 0;
       mret (if bool_decide (r' ≠ 0) then 1 else 0).

Definition lua_close : M unit := emit EvClose.

Definition fprintf_stderr (line : lstring) : M unit := emit (EvStderr line).

(** [for (int i = i0; ...; i++) body(i, a[i - i0])] over the elements of
    an array. *)
Fixpoint for_each {A} (l : list A) (i : Z) (body : Z -> A -> M unit) : M unit :=
  match l with
  | [] => mret tt
  | a :: l' => body i a;; for_each l' (i + 1) body
  end.

End Lua.

Import Lua.

(** ** The launcher *)

Module Launcher.

Definition appName : lstring := str "ldoc.exe".

Section Build.

(** The macros of [lua.hpp] that the search path templates use. *)
Variables LUA_VERSION_MAJOR LUA_VERSION_MINOR : lstring.

(** The entries before the terminating [NULL]. *)
Definition LUA_PATHS : list lstring := [
  str "bin\lua\?.lua";
  str "bin\lua\?\init.lua";
  str "bin\?.lua";
  str "bin\?\init.lua";
  str "share\lua\" ++ LUA_VERSION_MAJOR ++ str "." ++ LUA_VERSION_MINOR ++ str "\?.lua";
  str "share\lua\" ++ LUA_VERSION_MAJOR ++ str "." ++ LUA_VERSION_MINOR ++ str "\?\init.lua";
  str ".\?.lua";
  str ".\?\init.lua"
].

Definition LUA_CPATHS : list lstring := [
  str "bin\?.dll";
  str "lib\lua\" ++ LUA_VERSION_MAJOR ++ str "." ++ LUA_VERSION_MINOR ++ str "\?.dll";
  str "bin\loadall.dll";
  str ".\?.dll"
].

(** The lines of [main] from [luaL_openlibs] to the report of a failed call
    of the bridge routine; they are the same in both variants. *)
Definition configure (w : world) (utf8Prefix : lstring) (argv : list lstring)
  : M unit :=
  luaL_openlibs w;;
  lua_newtable;;
  for_each argv 0 (fun i a => lua_pushstring a;; lua_rawseti (-2) i);;
  lua_setglobal "arg";;
  luaL_dostring_setPaths w;;
  lua_getglobal "setPaths";;
  lua_pushstring utf8Prefix;;
  lua_newtable;;
  for_each LUA_PATHS 0 (fun i p => lua_pushstring p;; lua_rawseti (-2) (i + 1));;
  lua_newtable;;
  for_each LUA_CPATHS 0 (fun i p => lua_pushstring p;; lua_rawseti (-2) (i + 1));;
  r ← lua_pcall w 3 0 0;
  if bool_decide (r ≠ 0) then
    msg ← lua_tostring (-1);
    fprintf_stderr (appName ++ str ": Error setting paths: " ++ msg ++ [LF])
  else mret tt.

(** The frame of [main]: the two early returns, then the configuration and
    the variant's way to run the payload.  The result is the exit status
    and what the process did. *)
Definition launch (w : world) (argv : list lstring)
    (run_payload : lstring -> M Z) : option (Z * list event) :=
  match install_prefix w with
  | None =>
      Some (1, [EvStderr (appName ++ str ": Could not find executable path." ++ [LF])])
  | Some utf8Prefix =>
      match luaL_newstate w with
      | None =>
          Some (1, [EvStderr (appName ++ str ": Failed to create Lua state." ++ [LF])])
      | Some L =>
          match (configure w utf8Prefix argv;; run_payload utf8Prefix)
                  {| lua := L; trace := [EvNewState] |} with
          | Some (status, m) => Some (status, trace m)
          | None => None
          end
      end
  end.

End Build.

End Launcher.

(** [src/ldoc.cpp]: the payload is the file [<prefix>\bin\ldoc.lua]. *)
Module OnDisk.

Import Launcher.

Definition run_script (w : world) (utf8Prefix : lstring) : M Z :=
  let scriptPath := utf8Prefix ++ str "\bin\ldoc.lua" in
  r ← luaL_dofile w scriptPath;
  if bool_decide (r ≠ 0) then
    msg ← lua_tostring (-1);
    fprintf_stderr (appName ++ str ": Error: " ++ msg ++ [LF]);;
    lua_close;;
    mret 1
  else
    lua_close;;
    mret 0.

Definition main (MAJOR MINOR : lstring) (w : world) (argv : list lstring)
  : option (Z * list event) :=
  launch MAJOR MINOR w argv (run_script w).

End OnDisk.

(** The variant with the embedded payload: [ldoc_source_bytes] and
    [ldoc_source_size] come from the generated header [ldoc_source.h]. *)
Module Embedded.

Import Launcher.

Definition run_buffer (w : world) (ldoc_source_bytes : lstring)
    (ldoc_source_size : nat) (utf8Prefix : lstring) : M Z :=
  r ← luaL_loadbuffer w ldoc_source_bytes ldoc_source_size (str "@ldoc.lua");
  (if bool_decide (r = LUA_OK) then
     r' ← lua_pcall w 0 LUA_MULTRET 0;
     if bool_decide (r' ≠ LUA_OK) then
       msg ← lua_tostring (-1);
       fprintf_stderr (appName ++ str ": Runtime error: " ++ msg ++ [LF])
     else mret tt
   else
     msg ← lua_tostring (-1);
     fprintf_stderr (appName ++ str ": Syntax error in embedded code: " ++ msg ++ [LF]));;
  lua_close;;
  mret 0.

Definition main (MAJOR MINOR : lstring) (ldoc_source_bytes : lstring)
    (ldoc_source_size : nat) (w : world) (argv : list lstring)
  : option (Z * list event) :=
  launch MAJOR MINOR w argv (run_buffer w ldoc_source_bytes ldoc_source_size).

End Embedded.

(** ** The build-time conversion, [cmake/convert_lua_to_hex.cmake]

    The script is run by CMake.  [file(READ)] and [file(WRITE)] are taken to
    transfer the text as it is; the text has no NUL byte. *)

Module Convert.

(** [[^\n]*\n]: the rest of the line and its line feed. *)
Fixpoint rest_of_line (s : lstring) : option lstring :=
  match s with
  | [] => None
  | c :: s' => if Ascii.eqb c LF then Some s' else rest_of_line s'
  end.

(** A match of the regular expression ["^#![^\n]*\n"] at the start of the
    text; the result is what follows the match. *)
Definition match_directive (s : lstring) : option lstring :=
  match s with
  | c1 :: c2 :: rest =>
      if Ascii.eqb c1 "#" && Ascii.eqb c2 "!" then rest_of_line rest else None
  | _ => None
  end.

(** The loop of [string(REGEX REPLACE)]: search, copy what precedes the
    match, append the replacement (here the empty string), move past the
    match, search again in what is left.  The anchored expression can only
    match at the start of the text that is searched. *)
Fixpoint replace_loop (fuel : nat) (input : lstring) : lstring :=
  match fuel with
  | O => input
  | S fuel' =>
      match match_directive input with
      | Some rest => replace_loop fuel' rest
      | None => input
      end
  end.

(** [string(REGEX REPLACE "^#![^\n]*\n" "" CLEAN_CONTENT "${CONTENT}")].
    [CMP0186] is CMake's policy of that name: with the old behaviour, the
    one of all versions before 4.1 and of the later ones as long as the
    policy is not set, [^] matches at the start of every search of the loop;
    with the new behaviour it matches only at the start of the input.  The
    script sets no policy. *)
Definition clean_content (CMP0186 : bool) (CONTENT : lstring) : lstring :=
  if CMP0186 then
    match match_directive CONTENT with
    | Some rest => rest
    | None => CONTENT
    end
  else replace_loop (length CONTENT) CONTENT.

Definition hex_digits : lstring := str "0123456789abcdef".

Definition hex_digit (n : nat) : ascii := nth n hex_digits "0"%char.

(** [file(READ ... HEX)]: two lower-case digits for every byte. *)
Definition hex_of_byte (c : ascii) : lstring :=
  let n := nat_of_ascii c in
  [hex_digit (n / 16)%nat; hex_digit (n mod 16)%nat].

Definition file_read_hex (content : lstring) : lstring :=
  concat (map hex_of_byte content).

Definition is_hex (c : ascii) : bool := existsb (Ascii.eqb c) hex_digits.

(** [string(REGEX REPLACE "([0-9a-f][0-9a-f])" "0x\\1," ...)]: the
    leftmost pair of digits is replaced, and the search goes on after it. *)
Fixpoint format_hex (s : lstring) : lstring :=
  match s with
  | a :: tl =>
      match tl with
      | b :: rest =>
          if is_hex a && is_hex b then str "0x" ++ [a; b] ++ str "," ++ format_hex rest
          else a :: format_hex tl
      | [] => s
      end
  | [] => []
  end.

(** The initializer between the braces of [ldoc_source_bytes]. *)
Definition initializer (CLEAN_CONTENT : lstring) : lstring :=
  [LF] ++ format_hex (file_read_hex CLEAN_CONTENT) ++ [LF] ++ str "0x00" ++ [LF].

(** The text written to the output file. *)
Definition header (CLEAN_CONTENT : lstring) : lstring :=
  str "#pragma once" ++ [LF; LF] ++
  str "static const unsigned char ldoc_source_bytes[] = {" ++
  initializer CLEAN_CONTENT ++
  str "};" ++ [LF; LF] ++
  str "static const unsigned int ldoc_source_size = sizeof(ldoc_source_bytes) - 1;" ++ [LF].

Definition convert (CMP0186 : bool) (CONTENT : lstring) : lstring :=
  header (clean_content CMP0186 CONTENT).

(** *** The header as the C++ compiler reads it *)

Fixpoint index_of (c : ascii) (l : lstring) : option nat :=
  match l with
  | [] => None
  | x :: l' => if Ascii.eqb c x then Some O else S <$> index_of c l'
  end.

Definition hex_value (c : ascii) : option nat := index_of c hex_digits.

(** The elements of an initializer list of [0xHH] constants. *)
Fixpoint array_elements (s : lstring) : option lstring :=
  match s with
  | [] => Some []
  | c :: s1 =>
      if Ascii.eqb c LF || Ascii.eqb c "," then array_elements s1
      else
        match s1 with
        | x :: h :: l :: rest =>
            if Ascii.eqb c "0" && Ascii.eqb x "x" then
              match hex_value h, hex_value l, array_elements rest with
              | Some vh, Some vl, Some bs =>
                  Some (ascii_of_nat (16 * vh + vl) :: bs)
              | _, _, _ => None
              end
            else None
        | _ => None
        end
  end.

(** [static const unsigned char ldoc_source_bytes[] = { ... };] *)
Definition ldoc_source_bytes (CLEAN_CONTENT : lstring) : option lstring :=
  array_elements (initializer CLEAN_CONTENT).

(** [sizeof(ldoc_source_bytes) - 1], with the unsigned subtraction of C on
    32 bits. *)
Definition ldoc_source_size (bytes : lstring) : nat :=
  Z.to_nat ((Z.of_nat (length bytes) - 1) mod 2 ^ 32).

(** What the specification calls the cleaned content: the text without
    its first line when that line starts with [#!]; a line ends with its
    line feed. *)
Fixpoint after_first_line (s : lstring) : lstring :=
  match s with
  | [] => []
  | c :: s' => if bool_decide (c = LF) then s' else after_first_line s'
  end.

Definition without_directive_line (content : lstring) : lstring :=
  if bool_decide (str "#!" `prefix_of` content) && bool_decide (LF ∈ content)
  then after_first_line content
  else content.

End Convert.

Import Convert.

(** ** Vocabulary of the properties *)

(** [clean] is [s] without its trailing run of [c]. *)
Definition trailing_removed (c : ascii) (s clean : lstring) : Prop :=
  (exists k : nat, s = clean ++ replicate k c) /\ last clean <> Some c.

(** [clean] is [s] without its leading run of [c]. *)
Definition leading_removed (c : ascii) (s clean : lstring) : Prop :=
  (exists k : nat, s = replicate k c ++ clean) /\ head clean <> Some c.

(** [clean] is [s] without its leading and its trailing run of [c]. *)
Definition both_removed (c : ascii) (s clean : lstring) : Prop :=
  (exists i j : nat, s = replicate i c ++ clean ++ replicate j c) /\
  head clean <> Some c /\ last clean <> Some c.

(** The number of occurrences of a character. *)
Definition occurrences (c : ascii) (s : lstring) : nat :=
  length (filter (fun x => x = c) s).

(** The pieces of [s] between the occurrences of [c], the way the module
    searchers of Lua take a search path apart. *)
Fixpoint split_on (c : ascii) (s : lstring) : list lstring :=
  match s with
  | [] => [[]]
  | x :: s' =>
      if bool_decide (x = c) then [] :: split_on c s'
      else match split_on c s' with
           | piece :: pieces => (x :: piece) :: pieces
           | [] => [[x]]
           end
  end.

(** The table that the launcher fills with [lua_rawseti] from an array,
    the first element under the key [i]. *)
Fixpoint table_from (l : list lstring) (i : Z) (t : gmap Z lstring)
  : gmap Z lstring :=
  match l with
  | [] => t
  | a :: l' => table_from l' (i + 1) (<[i := a]> t)
  end.

(** The sequence 1..n of Lua with the elements of [l]. *)
Definition sequence (l : list lstring) : gmap Z lstring := table_from l 1 ∅.

(** The string that the bridge routine inserts for the base path [R] and
    the template [T]. *)
Definition entry_of (R T : lstring) : option lstring :=
  match gsub R (str "\+$") [] with
  | Some (cleanBasePath, _) => full_entry cleanBasePath T
  | None => None
  end.

(** The recursive reading of "without the trailing run of [c]". *)
Fixpoint strip (c : ascii) (s : lstring) : lstring :=
  match s with
  | [] => []
  | x :: s' => if forallb (Ascii.eqb c) s then [] else x :: strip c s'
  end.

(** The error of the call of the bridge routine, if any: the call of an
    undefined global, or a fault inside the routine. *)
Definition bridge_error (w : world) : option lstring :=
  match define_error w with
  | Some _ => Some (str "attempt to call a nil value")
  | None => bridge_fault w
  end.

(** The report of a failed call of the bridge routine. *)
Definition setting_paths_report (msg : lstring) : event :=
  EvStderr (Launcher.appName ++ str ": Error setting paths: " ++ msg ++ [LF]).

(** What a run writes about the bridge routine. *)
Definition bridge_report (w : world) : list event :=
  match bridge_error w with
  | Some msg => [setting_paths_report msg]
  | None => []
  end.

(** The runtime state exists: the executable path resolved and
    [luaL_newstate] returned a state. *)
Definition runtime_created (w : world) : Prop :=
  is_Some (install_prefix w) /\ newstate w = true.

Definition mk_machine (s : list value) (g : gmap string value)
    (pp pc : lstring) (tr : list event) : machine :=
  {| lua := {| stack := s; globals := g; package_path := pp; package_cpath := pc |};
     trace := tr |}.

(** What the variants do from the loading of the payload on: the exit
    status and the events after the loading. *)
Definition disk_outcome (w : world) : Z * list event :=
  match payload w with
  | PayloadOk => (0, [EvRunPayload; EvClose])
  | PayloadSyntaxError msg =>
      (1, [EvStderr (Launcher.appName ++ str ": Error: " ++ msg ++ [LF]); EvClose])
  | PayloadRuntimeError msg =>
      (1, [EvRunPayload;
           EvStderr (Launcher.appName ++ str ": Error: " ++ msg ++ [LF]); EvClose])
  end.

Definition embedded_outcome (w : world) : Z * list event :=
  match payload w with
  | PayloadOk => (0, [EvRunPayload; EvClose])
  | PayloadSyntaxError msg =>
      (0, [EvStderr (Launcher.appName ++ str ": Syntax error in embedded code: "
                       ++ msg ++ [LF]); EvClose])
  | PayloadRuntimeError msg =>
      (0, [EvRunPayload;
           EvStderr (Launcher.appName ++ str ": Runtime error: " ++ msg ++ [LF]);
           EvClose])
  end.

(** Whether a call of the bridge routine that fails has assigned
    [package.path] all the same: the error was raised inside the routine,
    after its first assignment. *)
Definition path_assigned (w : world) : bool :=
  match define_error w with
  | Some _ => false
  | None => fault_after_path w
  end.

(** The state of the runtime when the payload is loaded, for the install
    prefix [prefix] and the arguments [argv]. *)
Definition configured (MAJOR MINOR : lstring) (w : world) (prefix : lstring)
    (argv : list lstring) (st : lua_State) : Prop :=
  globals st !! "arg"%string = Some (VTable (table_from argv 0 ∅)) /\
  (bridge_error w = None ->
   setPaths prefix (sequence (Launcher.LUA_PATHS MAJOR MINOR))
     (sequence (Launcher.LUA_CPATHS MAJOR MINOR)) =
     Some (package_path st, package_cpath st)) /\
  (is_Some (bridge_error w) ->
   package_cpath st = default_cpath w /\
   if path_assigned w then
     exists cpath,
       setPaths prefix (sequence (Launcher.LUA_PATHS MAJOR MINOR))
         (sequence (Launcher.LUA_CPATHS MAJOR MINOR)) =
         Some (package_path st, cpath)
   else package_path st = default_path w).

(** A run of the launcher, in one of its two variants; the embedded
    variant is built with some generated header. *)
Inductive run_of (MAJOR MINOR : lstring) (w : world) (argv : list lstring)
  : option (Z * list event) -> Prop :=
| run_disk : run_of MAJOR MINOR w argv (OnDisk.main MAJOR MINOR w argv)
| run_embedded (bytes : lstring) (size : nat) :
    run_of MAJOR MINOR w argv (Embedded.main MAJOR MINOR bytes size w argv).

Definition stderr_line (e : event) : option lstring :=
  match e with
  | EvStderr line => Some line
  | _ => None
  end.

(** The lines written to standard error, in order. *)
Definition stderr_of (r : option (Z * list event)) : list lstring :=
  match r with
  | Some (_, tr) => omap stderr_line tr
  | None => []
  end.

Definition exit_status (r : option (Z * list event)) : option Z :=
  fst <$> r.

Definition is_close (e : event) : bool :=
  match e with
  | EvClose => true
  | _ => false
  end.

Definition is_newstate (e : event) : bool :=
  match e with
  | EvNewState => true
  | _ => false
  end.

(** The payload is loaded in the state [st], which satisfies [P]. *)
Definition payload_sees (r : option (Z * list event)) (P : lua_State -> Prop)
  : Prop :=
  exists status tr c st,
    r = Some (status, tr) /\ EvLoadPayload c st ∈ tr /\ P st.

(** The global [arg] is a table with [argv[i]] under every [0 <= i < argc]
    and with nothing else. *)
Definition arg_is (argv : list lstring) (st : lua_State) : Prop :=
  exists t, globals st !! "arg"%string = Some (VTable t) /\
    forall i : Z,
      t !! i = if bool_decide (0 <= i < Z.of_nat (length argv))%Z
               then argv !! Z.to_nat i else None.


(** The diagnostics of a payload that does not compile and of a payload
    that raises can be told apart, whatever the messages are. *)
Definition distinguishes_failures
    (main : world -> list lstring -> option (Z * list event)) : Prop :=
  forall w1 w2 argv m1 m2,
    runtime_created w1 -> runtime_created w2 ->
    payload w1 = PayloadSyntaxError m1 ->
    payload w2 = PayloadRuntimeError m2 ->
    last (stderr_of (main w1 argv)) <> last (stderr_of (main w2 argv)).

(** The world in which the bridge routine is defined and does not fail. *)
Definition without_bridge_error (w : world) : world :=
  {| install_prefix := install_prefix w; newstate := newstate w;
     default_path := default_path w; default_cpath := default_cpath w;
     define_error := None; bridge_fault := None;
     fault_after_path := false; payload := payload w |}.

(** A world in which the runtime is created and configured, with the given
    behaviour of the payload. *)
Definition world_with (p : payload_outcome) : world :=
  {| install_prefix := Some (str "C:\opt\OneLuaPro"); newstate := true;
     default_path := str ".\?.lua"; default_cpath := str ".\?.dll";
     define_error := None; bridge_fault := None;
     fault_after_path := false; payload := p |}.


(** A world in which the path of the executable does not resolve. *)
Definition world_unresolved : world :=
  {| install_prefix := None; newstate := true;
     default_path := str ".\?.lua"; default_cpath := str ".\?.dll";
     define_error := None; bridge_fault := None;
     fault_after_path := false; payload := PayloadOk |}.

(** The categories of the diagnostics that carry a message of the runtime. *)
Definition categories : list lstring :=
  [str "Error setting paths"; str "Error"; str "Runtime error";
   str "Syntax error in embedded code"].

(** A world in which the call of the bridge routine raises. *)
Definition world_bridge_fault : world :=
  {| install_prefix := Some (str "C:\opt\OneLuaPro"); newstate := true;
     default_path := str ".\?.lua"; default_cpath := str ".\?.dll";
     define_error := None; bridge_fault := Some (str "not enough memory");
     fault_after_path := false;
     payload := PayloadOk |}.

(** A world in which the injected chunk does not load. *)
Definition world_define_error : world :=
  {| install_prefix := Some (str "C:\opt\OneLuaPro"); newstate := true;
     default_path := str ".\?.lua"; default_cpath := str ".\?.dll";
     define_error := Some (str "not enough memory"); bridge_fault := None;
     fault_after_path := false;
     payload := PayloadOk |}.

(** A text given by its lines, each one ended by a line feed. *)
Definition text (lines : list string) : lstring :=
  concat (map (fun l => str l ++ [LF]) lines).

(** The terminating byte that the script appends to the array. *)
Definition NUL : ascii := ascii_of_nat 0.

(** The chunk that the embedded variant hands to [luaL_loadbuffer] when it
    is built with the header generated from [CONTENT]. *)
Definition embedded_chunk (CMP0186 : bool) (CONTENT : lstring) : option lstring :=
  match ldoc_source_bytes (clean_content CMP0186 CONTENT) with
  | Some bytes => Some (take (ldoc_source_size bytes) bytes)
  | None => None
  end.

(** A script with two lines that start with [#!]. *)
Definition two_directives : lstring :=
  text ["#!/usr/bin/env lua"; "#!second"; "print(1)"]%string.

(** ** Vocabulary of the further properties *)

(** What a run did, in order. *)
Definition trace_of (r : option (Z * list event)) : list event :=
  match r with
  | Some (_, tr) => tr
  | None => []
  end.

Definition is_load (e : event) : bool :=
  match e with
  | EvLoadPayload _ _ => true
  | _ => false
  end.

Definition is_run (e : event) : bool :=
  match e with
  | EvRunPayload => true
  | _ => false
  end.

(** What [main] leaves on the Lua stack before it loads the payload: the
    message of [luaL_dostring] and the one of [lua_pcall] are not popped. *)
Definition leftover_stack (w : world) : list value :=
  match define_error w with
  | Some d => [VString (str "attempt to call a nil value"); VString d]
  | None =>
      match bridge_fault w with
      | Some msg => [VString msg]
      | None => []
      end
  end.

(** A text made of whole lines that start with [#!]. *)
Inductive directive_lines : lstring -> Prop :=
| directive_lines_nil : directive_lines []
| directive_lines_cons (line rest : lstring) :
    LF ∉ line -> directive_lines rest ->
    directive_lines (str "#!" ++ line ++ [LF] ++ rest).

(** The search path entries of the launcher for a cleaned install prefix. *)
Definition prefixed (cleanPrefix : lstring) (templates : list lstring)
  : list lstring :=
  map (fun T => cleanPrefix ++ [sep] ++ T) templates.

(** ** The conversion of the executable's path, [WideCharToUTF8] *)

Module Win32.



End Win32.

(** A world in which the bridge routine raises after it has assigned
    [package.path]. *)
Definition world_bridge_fault_late : world :=
  {| install_prefix := Some (str "C:\opt\OneLuaPro"); newstate := true;
     default_path := str ".\?.lua"; default_cpath := str ".\?.dll";
     define_error := None; bridge_fault := Some (str "not enough memory");
     fault_after_path := true; payload := PayloadOk |}.







(** * Properties *)

(** ** Patterns of the bridge routine *)

Section Gsub.

Local Open Scope nat_scope.

Lemma max_expand_any (f : lstring -> option lstring) (c : ascii) (s : lstring) :
  (forall x, f x = Some x) ->
  exists k e, max_expand f c s = Some e /\ s = replicate k c ++ e /\
              head e <> Some c.
Proof.
  intros Hf. induction s as [|x s IH]; simpl; rewrite ?Hf.
  - exists 0, []. split_and!; [done..|]. intros H; discriminate H.
  - destruct (Ascii.eqb_spec x c) as [->|Hne].
    + destruct IH as (k & e & -> & Hs & Hh).
      exists (S k), e. split_and!; [done|simpl; by rewrite <- Hs | done].
    + exists 0, (x :: s). split_and!; [done..|].
      simpl. intros [=]. done.
Qed.

Lemma max_expand_eos (c : ascii) (s : lstring) :
  max_expand (do_match [] true) c s =
  if forallb (Ascii.eqb c) s then Some [] else None.
Proof.
  induction s as [|x s IH]; cbn [max_expand forallb]; [done|].
  rewrite IH, (Ascii.eqb_sym c x).
  by destruct (Ascii.eqb x c), (forallb (Ascii.eqb c) s).
Qed.

Lemma gsub_leading (s : lstring) :
  exists clean n, gsub s (str "^\+") [] = Some (clean, n) /\
                  leading_removed sep s clean.
Proof.
  unfold gsub.
  change (parse_pattern (str "^\+"))
    with (Some {| anchor := true; body := [Plus sep]; eos := false |}).
  replace (2 * length s + 2) with (S (2 * length s + 1)) by lia.
  destruct s as [|x s]; simpl.
  - exists [], 0%Z. split; [done|]. split; [by exists 0|]. intros H; discriminate H.
  - destruct (Ascii.eqb_spec x sep) as [->|Hne].
    + match goal with
      | |- context [max_expand ?f sep s] =>
          destruct (max_expand_any f sep s) as (k & e & -> & Hs & Hh); [done|]
      end.
      exists e, 1%Z. split; [done|]. split; [|done].
      exists (S k). simpl. by rewrite <- Hs.
    + exists (x :: s), 0%Z. split; [done|]. split; [by exists 0|].
      simpl. intros [=]. done.
Qed.

Lemma gsub_loop_trailing (s : lstring) (fuel : nat) :
  length s + 2 <= fuel ->
  exists n, gsub_loop fuel {| anchor := false; body := [Plus sep]; eos := true |}
              [] s None = Some (strip sep s, n).
Proof.
  revert fuel. induction s as [|x s IH]; intros fuel Hf.
  - destruct fuel as [|fuel]; [simpl in Hf; lia|]. by exists 0%Z.
  - destruct fuel as [|fuel]; [simpl in Hf; lia|].
    cbn [gsub_loop body eos anchor do_match].
    destruct (Ascii.eqb_spec x sep) as [->|Hne].
    + rewrite max_expand_eos.
      cbn [strip forallb]. rewrite Ascii.eqb_refl. cbn [andb].
      destruct (forallb (Ascii.eqb sep) s) eqn:Hall.
      * rewrite bool_decide_eq_false_2 by discriminate.
        destruct fuel as [|fuel]; [simpl in Hf; lia|].
        by exists (1 + 0)%Z.
      * destruct (IH fuel) as [n Hn]; [simpl in Hf; lia|].
        rewrite Hn. by exists (0 + n)%Z.
    + cbn [strip forallb].
      replace (Ascii.eqb sep x) with false
        by (symmetry; apply Ascii.eqb_neq; congruence).
      cbn [andb].
      destruct (IH fuel) as [n Hn]; [simpl in Hf; lia|].
      rewrite Hn. by exists (0 + n)%Z.
Qed.

Lemma forallb_replicate (c : ascii) (s : lstring) :
  forallb (Ascii.eqb c) s = true -> s = replicate (length s) c.
Proof.
  induction s as [|x s IH]; simpl; [done|].
  intros [Hx Hs]%andb_prop. apply Ascii.eqb_eq in Hx. subst x.
  by rewrite <- IH.
Qed.

Lemma strip_trailing_removed (c : ascii) (s : lstring) :
  trailing_removed c s (strip c s).
Proof.
  induction s as [|x s [[k Hk] Hl]].
  - split; [by exists 0|]. intros H; discriminate H.
  - cbn [strip]. destruct (forallb (Ascii.eqb c) (x :: s)) eqn:Hall.
    + split; [|intros H; discriminate H].
      exists (length (x :: s)). by apply forallb_replicate.
    + split.
      * exists k. simpl. by rewrite <- Hk.
      * destruct (strip c s) as [|y r] eqn:Hr.
        -- simpl. intros [= ->].
           simpl in Hk. rewrite Hk in Hall. simpl in Hall.
           rewrite Ascii.eqb_refl in Hall. simpl in Hall.
           assert (forallb (Ascii.eqb c) (replicate k c) = true) as Hrep.
           { clear. induction k; simpl; [done|].
             by rewrite Ascii.eqb_refl. }
           congruence.
        -- by rewrite last_cons_cons.
Qed.

Lemma gsub_trailing (s : lstring) :
  exists clean n, gsub s (str "\+$") [] = Some (clean, n) /\
                  trailing_removed sep s clean.
Proof.
  unfold gsub.
  change (parse_pattern (str "\+$"))
    with (Some {| anchor := false; body := [Plus sep]; eos := true |}).
  destruct (gsub_loop_trailing s (2 * length s + 2)) as [n Hn]; [lia|].
  exists (strip sep s), n. split; [done|]. apply strip_trailing_removed.
Qed.

Lemma max_expand_shorter (f : lstring -> option lstring) (c : ascii)
    (s e : lstring) :
  (forall x y, f x = Some y -> length y <= length x) ->
  max_expand f c s = Some e -> length e <= length s.
Proof.
  intros Hf. induction s as [|x s IH]; cbn [max_expand]; [apply Hf|].
  destruct (Ascii.eqb x c); [|apply Hf].
  destruct (max_expand f c s) as [e'|] eqn:E.
  - intros [= <-]. specialize (IH eq_refl). simpl. lia.
  - apply Hf.
Qed.

Lemma do_match_shorter (items : list pitem) (e_o_s : bool) (s e : lstring) :
  do_match items e_o_s s = Some e -> length e <= length s.
Proof.
  revert s e. induction items as [|[c|c] items IH]; intros s e; cbn [do_match].
  - destruct e_o_s; [destruct s|]; by intros [= <-].
  - destruct s as [|x s]; [done|]. destruct (Ascii.eqb x c); [|done].
    intros H%IH. simpl. lia.
  - destruct s as [|x s]; [done|]. destruct (Ascii.eqb x c); [|done].
    intros H%max_expand_shorter; [simpl; lia | apply IH].
Qed.

(** The loop of [gsub] ends within its bound, for every pattern of the
    fragment and every subject. *)
Lemma gsub_loop_total (fuel : nat) (p : pattern) (repl src : lstring)
    (lastmatch : option nat) :
  2 * length src + (if bool_decide (lastmatch = Some (length src)) then 0 else 1)
    < fuel ->
  is_Some (gsub_loop fuel p repl src lastmatch).
Proof.
  revert src lastmatch. induction fuel as [|fuel IH]; intros src lm Hf; [lia|].
  cbn [gsub_loop].
  assert (is_Some
            match src with
            | [] => Some ([], 0%Z)
            | c :: src' =>
                if anchor p then Some ([c] ++ src', 0%Z)
                else match gsub_loop fuel p repl src' lm with
                     | Some (rest, m) => Some ([c] ++ rest, (0 + m)%Z)
                     | None => None
                     end
            end) as Hskip.
  { destruct src as [|c src']; [done|]. destruct (anchor p); [done|].
    destruct (IH src' lm) as [[rest m] ->]; [|done].
    cbn [length] in Hf. repeat case_bool_decide; lia. }
  destruct (do_match (body p) (eos p) src) as [e|] eqn:E; [|exact Hskip].
  destruct (decide (lm = Some (length e))) as [Hlm|Hlm].
  { rewrite bool_decide_eq_true_2 by done. exact Hskip. }
  rewrite bool_decide_eq_false_2 by done.
  destruct (anchor p); [done|].
  apply do_match_shorter in E.
  destruct (IH e (Some (length e))) as [[rest m] ->]; [|done].
  rewrite bool_decide_eq_true_2 by done.
  destruct (decide (length e = length src)) as [Heq|Hne].
  - rewrite Heq in Hlm. rewrite bool_decide_eq_false_2 in Hf by done. lia.
  - case_bool_decide; lia.
Qed.

Lemma gsub_total (s pat repl : lstring) :
  is_Some (parse_pattern pat) -> is_Some (gsub s pat repl).
Proof.
  intros [p Hp]. unfold gsub. rewrite Hp. apply gsub_loop_total.
  rewrite bool_decide_eq_false_2 by done. lia.
Qed.

End Gsub.

(** ** Tables built from arrays, and [ipairs] *)

Lemma table_from_lookup (l : list lstring) (i : Z) (t : gmap Z lstring) (k : Z) :
  table_from l i t !! k =
  if bool_decide (i <= k < i + Z.of_nat (length l))%Z
  then l !! Z.to_nat (k - i) else t !! k.
Proof.
  revert i t. induction l as [|a l IH]; intros i t; cbn [table_from length].
  - rewrite bool_decide_eq_false_2; [done | lia].
  - rewrite IH. case_bool_decide as H1; case_bool_decide as H2; try lia.
    + replace (Z.to_nat (k - i)) with (S (Z.to_nat (k - (i + 1)))) by lia. done.
    + assert (k = i) as -> by lia.
      rewrite lookup_insert_eq. by replace (Z.to_nat (i - i)) with O by lia.
    + rewrite lookup_insert_ne; [done | lia].
Qed.

Lemma table_from_size (l : list lstring) (i : Z) (t : gmap Z lstring) :
  (forall k, (i <= k)%Z -> t !! k = None) ->
  size (table_from l i t) = (size t + length l)%nat.
Proof.
  revert i t. induction l as [|a l IH]; intros i t Ht; cbn [table_from length].
  - lia.
  - rewrite IH.
    + rewrite map_size_insert_None; [lia | apply Ht; lia].
    + intros k Hk. rewrite lookup_insert_ne; [apply Ht|]; lia.
Qed.

Lemma ipairs_from_exact (t : gmap Z lstring) (vs : list lstring) (i : Z) :
  (forall k : nat, (k < length vs)%nat -> t !! (i + Z.of_nat k)%Z = vs !! k) ->
  ipairs_from (length vs) t i = vs.
Proof.
  revert i. induction vs as [|v vs IH]; intros i H; cbn [ipairs_from length]; [done|].
  specialize (H O) as H0. rewrite Z.add_0_r in H0.
  rewrite H0 by (simpl; lia). cbn [lookup list_lookup]. f_equal.
  apply IH. intros k Hk.
  replace (i + 1 + Z.of_nat k)%Z with (i + Z.of_nat (S k))%Z by lia.
  rewrite H by (simpl; lia). done.
Qed.

Lemma ipairs_sequence (l : list lstring) : ipairs (sequence l) = l.
Proof.
  unfold ipairs, sequence.
  rewrite table_from_size by (intros; apply lookup_empty).
  rewrite map_size_empty. cbn [Nat.add].
  apply ipairs_from_exact. intros k Hk.
  rewrite table_from_lookup, bool_decide_eq_true_2 by lia.
  f_equal. lia.
Qed.

(** [ipairs] stops at the first absent key, for every table: the bound on
    the number of steps does not cut the traversal short. *)
Lemma ipairs_from_stops (fuel : nat) (t : gmap Z lstring) (i : Z) :
  (size (filter (fun k : Z => (i <= k)%Z) (dom t)) <= fuel)%nat ->
  t !! (i + Z.of_nat (length (ipairs_from fuel t i)))%Z = None.
Proof.
  revert i. induction fuel as [|fuel IH]; intros i Hsize; cbn [ipairs_from].
  - cbn [length]. rewrite Z.add_0_r.
    apply not_elem_of_dom. intros Hin.
    assert (i ∈ filter (fun k : Z => (i <= k)%Z) (dom t)) as Hi
      by (apply elem_of_filter; split; [lia | done]).
    assert (size (filter (fun k : Z => (i <= k)%Z) (dom t)) = 0%nat) as H0 by lia.
    apply size_empty_inv in H0. by apply H0 in Hi.
  - destruct (t !! i) as [v|] eqn:Hv; cbn [length].
    + replace (i + Z.of_nat (S (length (ipairs_from fuel t (i + 1)))))%Z
        with (i + 1 + Z.of_nat (length (ipairs_from fuel t (i + 1))))%Z by lia.
      apply IH.
      assert (filter (fun k : Z => (i <= k)%Z) (dom t)
              = {[i]} ∪ filter (fun k : Z => (i + 1 <= k)%Z) (dom t)) as Heq.
      { apply set_eq. intros k.
        rewrite elem_of_union, !elem_of_filter, elem_of_singleton. split.
        - intros [Hk Hd].
          destruct (decide (k = i)); [by left | right; split; [lia|done]].
        - intros [->|[Hk Hd]]; (split; [lia|]); [|done].
          apply elem_of_dom. by eexists. }
      rewrite Heq, size_union, size_singleton in Hsize; [lia|].
      intros k. rewrite elem_of_singleton, elem_of_filter. lia.
    + by rewrite Z.add_0_r.
Qed.

Lemma ipairs_stops (t : gmap Z lstring) :
  t !! (1 + Z.of_nat (length (ipairs t)))%Z = None.
Proof.
  apply ipairs_from_stops.
  rewrite <- size_dom. apply subseteq_size.
  intros k Hk. by apply elem_of_filter in Hk as [_ Hk].
Qed.

Lemma ipairs_from_lookup (fuel : nat) (t : gmap Z lstring) (i : Z) (k : nat) :
  (k < length (ipairs_from fuel t i))%nat ->
  ipairs_from fuel t i !! k = t !! (i + Z.of_nat k)%Z.
Proof.
  revert i k. induction fuel as [|fuel IH]; intros i k; cbn [ipairs_from].
  - simpl. lia.
  - destruct (t !! i) as [v|] eqn:Hv; [|simpl; lia].
    destruct k as [|k]; cbn [length lookup list_lookup].
    + by rewrite Z.add_0_r.
    + intros Hk. rewrite IH by lia. f_equal. lia.
Qed.

(** ** The bridge routine *)

Lemma full_entry_spec (cleanBasePath T : lstring) :
  exists cleanT, both_removed sep T cleanT /\
                 full_entry cleanBasePath T = Some (cleanBasePath ++ [sep] ++ cleanT).
Proof.
  unfold full_entry.
  destruct (gsub_leading T) as (t1 & n1 & -> & [[i Hi] Hh]).
  destruct (gsub_trailing t1) as (t2 & n2 & -> & [[j Hj] Hl]).
  exists t2. split; [|done].
  split; [exists i, j; by rewrite <- Hj|]. split; [|done].
  destruct t2 as [|x t2]; [intros H; discriminate H|].
  by rewrite Hj in Hh.
Qed.

Lemma entry_of_spec (R T : lstring) :
  exists cleanR cleanT,
    trailing_removed sep R cleanR /\ both_removed sep T cleanT /\
    entry_of R T = Some (cleanR ++ [sep] ++ cleanT).
Proof.
  unfold entry_of.
  destruct (gsub_trailing R) as (cleanR & n & -> & HR).
  destruct (full_entry_spec cleanR T) as (cleanT & HT & ->).
  by exists cleanR, cleanT.
Qed.

Lemma insert_all_spec (c : lstring) (vs fullPaths : list lstring) :
  exists es, Forall2 (fun T e => full_entry c T = Some e) vs es /\
             insert_all c vs fullPaths = Some (fullPaths ++ es).
Proof.
  revert fullPaths. induction vs as [|v vs IH]; intros acc; cbn [insert_all].
  - exists []. split; [constructor | by rewrite app_nil_r].
  - destruct (full_entry_spec c v) as (cleanT & _ & He). rewrite He.
    destruct (IH (acc ++ [c ++ [sep] ++ cleanT])) as (es & Hes & ->).
    exists ((c ++ [sep] ++ cleanT) :: es). split; [by constructor|].
    by rewrite <- app_assoc.
Qed.

Lemma setPaths_spec (R : lstring) (ts cs : list lstring) :
  exists es ecs,
    Forall2 (fun T e => entry_of R T = Some e) ts es /\
    Forall2 (fun T e => entry_of R T = Some e) cs ecs /\
    setPaths R (sequence ts) (sequence cs) =
      Some (table_concat es [path_sep], table_concat ecs [path_sep]).
Proof.
  unfold setPaths, entry_of. rewrite !ipairs_sequence.
  destruct (gsub_trailing R) as (cleanR & n & -> & _).
  destruct (insert_all_spec cleanR ts []) as (es & Hes & ->).
  destruct (insert_all_spec cleanR cs []) as (ecs & Hecs & ->).
  by exists es, ecs.
Qed.

Lemma occurrences_app (c : ascii) (s1 s2 : lstring) :
  occurrences c (s1 ++ s2) = (occurrences c s1 + occurrences c s2)%nat.
Proof. unfold occurrences. by rewrite filter_app, length_app. Qed.

Lemma table_concat_occurrences (c : ascii) (es : list lstring) :
  es <> [] ->
  occurrences c (table_concat es [c]) =
  (length es - 1 + sum_list (occurrences c <$> es))%nat.
Proof.
  induction es as [|e es IH]; [done|]. intros _.
  destruct es as [|e' es].
  - simpl. lia.
  - change (table_concat (e :: e' :: es) [c])
      with (e ++ [c] ++ table_concat (e' :: es) [c]).
    rewrite !occurrences_app, IH by done.
    replace (occurrences c [c]) with 1%nat.
    + rewrite !fmap_cons. cbn [length sum_list sum_list_with]. unfold id. lia.
    + unfold occurrences. rewrite filter_cons_True by done. done.
Qed.

Lemma split_on_app_sep (c : ascii) (e rest : lstring) :
  c ∉ e -> split_on c (e ++ [c] ++ rest) = e :: split_on c rest.
Proof.
  induction e as [|x e IH]; intros Hc; cbn [app split_on].
  - by rewrite bool_decide_eq_true_2.
  - rewrite bool_decide_eq_false_2 by set_solver.
    cbn [app] in IH. rewrite IH by set_solver. done.
Qed.

Lemma split_on_none (c : ascii) (e : lstring) : c ∉ e -> split_on c e = [e].
Proof.
  induction e as [|x e IH]; intros Hc; cbn [split_on]; [done|].
  rewrite bool_decide_eq_false_2 by set_solver.
  rewrite IH by set_solver. done.
Qed.

Lemma split_on_table_concat (c : ascii) (es : list lstring) :
  es <> [] -> Forall (fun e => c ∉ e) es ->
  split_on c (table_concat es [c]) = es.
Proof.
  induction es as [|e es IH]; [done|]. intros _ Hall.
  apply Forall_cons in Hall as [He Hes].
  destruct es as [|e' es].
  - by apply split_on_none.
  - change (table_concat (e :: e' :: es) [c])
      with (e ++ [c] ++ table_concat (e' :: es) [c]).
    rewrite split_on_app_sep by done. by rewrite IH.
Qed.

(** C3. For every install root [R] and template [T], the bridge routine
    produces the cleaned root (the root without its trailing separators),
    one separator, and the cleaned template (the template without its
    leading and trailing separators): the cleaned root does not end with a
    separator and the cleaned template does not begin with one, so there is
    exactly one separator at the join. *)
Theorem C3_one_separator_at_join (R T : lstring) :
  exists cleanR cleanT,
    trailing_removed sep R cleanR /\
    both_removed sep T cleanT /\
    entry_of R T = Some (cleanR ++ [sep] ++ cleanT) /\
    setPaths R (sequence [T]) (sequence [T]) =
      Some (cleanR ++ [sep] ++ cleanT, cleanR ++ [sep] ++ cleanT).
Proof.
  destruct (entry_of_spec R T) as (cleanR & cleanT & HR & HT & He).
  exists cleanR, cleanT. split_and!; [done..|].
  destruct (setPaths_spec R [T] [T]) as (es & ecs & Hes & Hecs & ->).
  apply Forall2_cons_inv_l in Hes as (e & es' & He1 & ->%Forall2_nil_inv_l & ->).
  apply Forall2_cons_inv_l in Hecs as (e2 & es2 & He2 & ->%Forall2_nil_inv_l & ->).
  cbn [table_concat]. congruence.
Qed.

Lemma entries_cleaned (R : lstring) (ts es : list lstring) :
  Forall2 (fun T e => entry_of R T = Some e) ts es ->
  exists cleanR cleanTs,
    trailing_removed sep R cleanR /\
    Forall2 (both_removed sep) ts cleanTs /\
    es = prefixed cleanR cleanTs.
Proof.
  intros H. destruct (gsub_trailing R) as (cleanR & n & Hg & HR).
  exists cleanR.
  assert (exists cleanTs, Forall2 (both_removed sep) ts cleanTs /\
                          es = prefixed cleanR cleanTs) as (cleanTs & ? & ?);
    [|by exists cleanTs].
  induction H as [|T e ts es He _ (cleanTs & Hts & ->)].
  - exists []. split; [constructor | done].
  - unfold entry_of in He. rewrite Hg in He.
    destruct (full_entry_spec cleanR T) as (cT & HcT & Hfe).
    rewrite Hfe in He. injection He as <-.
    exists (cT :: cleanTs). split; [by constructor | done].
Qed.

Lemma occurrences_none (c : ascii) (s : lstring) :
  c ∉ s -> occurrences c s = 0%nat.
Proof.
  unfold occurrences. induction s as [|x s IH]; intros H; [done|].
  rewrite filter_cons_False by set_solver. apply IH. set_solver.
Qed.

Lemma prefixed_without (c : ascii) (R cleanR : lstring) (ts cleanTs : list lstring) :
  c <> sep -> c ∉ R -> Forall (fun T => c ∉ T) ts ->
  trailing_removed sep R cleanR -> Forall2 (both_removed sep) ts cleanTs ->
  Forall (fun e => c ∉ e) (prefixed cleanR cleanTs).
Proof.
  intros Hc HR Hts [[k Hk] _] H.
  assert (c ∉ cleanR) as HcR by (rewrite Hk in HR; set_solver).
  induction H as [|T cT ts cleanTs ((i & j & HT) & _) _ IH]; [constructor|].
  apply Forall_cons in Hts as [HcT Hts]. cbn [prefixed map].
  apply Forall_cons. split; [|by apply IH].
  intros [?|[?%list_elem_of_singleton|?]%elem_of_app]%elem_of_app; [done..|].
  apply HcT. rewrite HT, !elem_of_app. by right; left.
Qed.

(** C4. For every base path and every non-empty list of N templates, given
    as the list for [package.path] (or likewise as the list for
    [package.cpath], whatever the other list is), the string that the
    bridge routine assigns is made of the N joined entries, the i-th one
    being the cleaned base path, one separator and the cleaned i-th
    template, in the order of the list, with one [;] between two
    neighbours.  The string has N-1 occurrences of [;] besides those inside
    the entries; when neither the base path nor a template holds a [;], it
    has exactly N-1 of them, and cutting it at every [;] gives the N entries
    back in order. *)
Theorem C4_search_path_order (R : lstring) (ts others : list lstring) :
  ts <> [] ->
  exists cleanR cleanTs,
    trailing_removed sep R cleanR /\
    Forall2 (both_removed sep) ts cleanTs /\
    (exists cpath, setPaths R (sequence ts) (sequence others) =
                     Some (table_concat (prefixed cleanR cleanTs) [path_sep], cpath)) /\
    (exists path, setPaths R (sequence others) (sequence ts) =
                    Some (path, table_concat (prefixed cleanR cleanTs) [path_sep])) /\
    occurrences path_sep (table_concat (prefixed cleanR cleanTs) [path_sep]) =
      (length ts - 1
       + sum_list (occurrences path_sep <$> prefixed cleanR cleanTs))%nat /\
    (Forall (fun e => path_sep ∉ e) (prefixed cleanR cleanTs) ->
     split_on path_sep (table_concat (prefixed cleanR cleanTs) [path_sep]) =
       prefixed cleanR cleanTs) /\
    (path_sep ∉ R -> Forall (fun T => path_sep ∉ T) ts ->
     occurrences path_sep (table_concat (prefixed cleanR cleanTs) [path_sep]) =
       (length ts - 1)%nat /\
     split_on path_sep (table_concat (prefixed cleanR cleanTs) [path_sep]) =
       prefixed cleanR cleanTs).
Proof.
  intros Hts.
  destruct (setPaths_spec R ts others) as (es & eos & Hes & _ & Hset).
  destruct (setPaths_spec R others ts) as (eos' & es' & _ & Hes' & Hset').
  assert (es' = es) as ->.
  { clear -Hes Hes'. revert es es' Hes Hes'.
    induction ts as [|T ts IH]; intros es es' Hes Hes'.
    - apply Forall2_nil_inv_l in Hes, Hes'. by subst.
    - apply Forall2_cons_inv_l in Hes as (e & l & He & Hl & ->).
      apply Forall2_cons_inv_l in Hes' as (e' & l' & He' & Hl' & ->).
      f_equal; [congruence | by apply IH]. }
  assert (es <> []) as Hes0 by (intros ->; by apply Forall2_nil_inv_r in Hes).
  assert (length es = length ts) as Hlen by (symmetry; by eapply Forall2_length).
  destruct (entries_cleaned R ts es Hes) as (cleanR & cleanTs & HR & HTs & ->).
  assert (occurrences path_sep (table_concat (prefixed cleanR cleanTs) [path_sep]) =
          (length ts - 1
           + sum_list (occurrences path_sep <$> prefixed cleanR cleanTs))%nat)
    as Hocc by (rewrite <- Hlen; by apply table_concat_occurrences).
  exists cleanR, cleanTs. split_and!.
  - done.
  - done.
  - by eexists.
  - by eexists.
  - done.
  - by apply split_on_table_concat.
  - intros HcR HcT.
    assert (Forall (fun e => path_sep ∉ e) (prefixed cleanR cleanTs)) as Hnone
      by (by apply (prefixed_without path_sep R cleanR ts cleanTs)).
    split; [|by apply split_on_table_concat].
    rewrite Hocc.
    assert (sum_list (occurrences path_sep <$> prefixed cleanR cleanTs) = 0%nat)
      as ->; [|lia].
    clear -Hnone. induction Hnone as [|e es He _ IH]; [done|].
    rewrite fmap_cons. cbn [sum_list sum_list_with].
    by rewrite IH, (occurrences_none path_sep e He).
Qed.

Lemma C4_search_path_order_witness :
  exists cleanR cleanTs,
    trailing_removed sep (str "C:\opt\\") cleanR /\
    Forall2 (both_removed sep) [str "\bin\?.lua\"; str "share\?.lua"] cleanTs /\
    (exists cpath,
       setPaths (str "C:\opt\\") (sequence [str "\bin\?.lua\"; str "share\?.lua"])
         (sequence [str "bin\?.dll"]) =
         Some (table_concat (prefixed cleanR cleanTs) [path_sep], cpath)) /\
    (exists path,
       setPaths (str "C:\opt\\") (sequence [str "bin\?.dll"])
         (sequence [str "\bin\?.lua\"; str "share\?.lua"]) =
         Some (path, table_concat (prefixed cleanR cleanTs) [path_sep])) /\
    occurrences path_sep (table_concat (prefixed cleanR cleanTs) [path_sep]) =
      (length [str "\bin\?.lua\"; str "share\?.lua"] - 1
       + sum_list (occurrences path_sep <$> prefixed cleanR cleanTs))%nat /\
    (Forall (fun e => path_sep ∉ e) (prefixed cleanR cleanTs) ->
     split_on path_sep (table_concat (prefixed cleanR cleanTs) [path_sep]) =
       prefixed cleanR cleanTs) /\
    (path_sep ∉ str "C:\opt\\" ->
     Forall (fun T => path_sep ∉ T) [str "\bin\?.lua\"; str "share\?.lua"] ->
     occurrences path_sep (table_concat (prefixed cleanR cleanTs) [path_sep]) =
       (length [str "\bin\?.lua\"; str "share\?.lua"] - 1)%nat /\
     split_on path_sep (table_concat (prefixed cleanR cleanTs) [path_sep]) =
       prefixed cleanR cleanTs).
Proof.
  apply (C4_search_path_order (str "C:\opt\\")
           [str "\bin\?.lua\"; str "share\?.lua"] [str "bin\?.dll"]).
  discriminate.
Defined.

(** ** Steps of the C API *)

Lemma run_bind {A B} (c : M A) (f : A -> M B) (m m' : machine) (a : A) :
  c m = Some (a, m') -> (c ≫= f) m = f a m'.
Proof. intros H. unfold mbind, M_bind. by rewrite H. Qed.

Lemma run_bind_assoc {A B C} (c : M A) (f : A -> M B) (h : B -> M C)
    (m : machine) :
  ((c ≫= f) ≫= h) m = (c ≫= fun a => f a ≫= h) m.
Proof. unfold mbind, M_bind. by destruct (c m) as [[a m']|]. Qed.

Lemma stack_pos_top (v : value) (s : list value) :
  stack_pos (v :: s) (-1) = Some O.
Proof.
  unfold stack_pos. cbn [length].
  replace (- -1 <=? Z.of_nat (S (length s)))%Z with true
    by (symmetry; apply Z.leb_le; lia).
  done.
Qed.

Lemma stack_pos_second (v v' : value) (s : list value) :
  stack_pos (v :: v' :: s) (-2) = Some 1%nat.
Proof.
  unfold stack_pos. cbn [length].
  replace (- -2 <=? Z.of_nat (S (S (length s))))%Z with true
    by (symmetry; apply Z.leb_le; lia).
  done.
Qed.

Lemma rawseti_step (a : lstring) (n : Z) t below g pp pc tr :
  (lua_pushstring a;; lua_rawseti (-2) n) (mk_machine (VTable t :: below) g pp pc tr)
  = Some (tt, mk_machine (VTable (<[n := a]> t) :: below) g pp pc tr).
Proof.
  unfold lua_rawseti, lua_pushstring, push, get_lua, put_lua, mbind, M_bind,
    mk_machine, set_stack.
  cbn [lua stack trace globals package_path package_cpath].
  by rewrite stack_pos_second.
Qed.

Lemma for_each_rawseti (key : Z -> Z) (l : list lstring) (i : Z) t below g pp pc tr :
  (forall j, key (j + 1) = key j + 1)%Z ->
  for_each l i (fun j a => lua_pushstring a;; lua_rawseti (-2) (key j))
    (mk_machine (VTable t :: below) g pp pc tr)
  = Some (tt, mk_machine (VTable (table_from l (key i) t) :: below) g pp pc tr).
Proof.
  intros Hkey. revert i t. induction l as [|a l IH]; intros i t; cbn [for_each table_from].
  - done.
  - erewrite run_bind by apply rawseti_step. rewrite IH. by rewrite Hkey.
Qed.

Ltac unfold_pcall :=
  unfold lua_pcall, get_lua, mbind, M_bind, mk_machine;
  cbn [lua stack];
  change (Z.to_nat 3) with 3%nat; change (Z.to_nat 0) with 0%nat;
  cbn [drop take rev app];
  unfold call, raise, get_lua, put_lua, emit, mbind, M_bind, mret, M_ret, set_stack;
  cbn [lua stack globals package_path package_cpath trace].

Section Steps.

Variables (w : world) (s : list value) (g : gmap string value)
  (pp pc : lstring) (tr : list event).

Lemma openlibs_step :
  luaL_openlibs w (mk_machine s g pp pc tr)
  = Some (tt, mk_machine s g (default_path w) (default_cpath w) tr).
Proof. done. Qed.

Lemma newtable_step :
  lua_newtable (mk_machine s g pp pc tr)
  = Some (tt, mk_machine (VTable ∅ :: s) g pp pc tr).
Proof. done. Qed.

Lemma pushstring_step (a : lstring) :
  lua_pushstring a (mk_machine s g pp pc tr)
  = Some (tt, mk_machine (VString a :: s) g pp pc tr).
Proof. done. Qed.

Lemma setglobal_step (name : string) (v : value) :
  lua_setglobal name (mk_machine (v :: s) g pp pc tr)
  = Some (tt, mk_machine s (<[name := v]> g) pp pc tr).
Proof. done. Qed.

Lemma getglobal_step (name : string) :
  lua_getglobal name (mk_machine s g pp pc tr)
  = Some (tt, mk_machine (default VNil (g !! name) :: s) g pp pc tr).
Proof. done. Qed.

Lemma tostring_step (msg : lstring) :
  lua_tostring (-1) (mk_machine (VString msg :: s) g pp pc tr)
  = Some (msg, mk_machine (VString msg :: s) g pp pc tr).
Proof.
  unfold lua_tostring, get_lua, mbind, M_bind, mk_machine.
  cbn [lua stack]. by rewrite stack_pos_top.
Qed.

Lemma fprintf_step (line : lstring) :
  fprintf_stderr line (mk_machine s g pp pc tr)
  = Some (tt, mk_machine s g pp pc (tr ++ [EvStderr line])).
Proof. done. Qed.

Lemma close_step :
  lua_close (mk_machine s g pp pc tr)
  = Some (tt, mk_machine s g pp pc (tr ++ [EvClose])).
Proof. done. Qed.

Lemma dostring_ok :
  define_error w = None ->
  luaL_dostring_setPaths w (mk_machine s g pp pc tr)
  = Some (0, mk_machine s (<["setPaths"%string := VFunction SetPathsFn]> g) pp pc tr).
Proof.
  intros H. unfold luaL_dostring_setPaths, luaL_loadstring_setPaths. by rewrite H.
Qed.

Lemma dostring_error (msg : lstring) :
  define_error w = Some msg ->
  luaL_dostring_setPaths w (mk_machine s g pp pc tr)
  = Some (1, mk_machine (VString msg :: s) g pp pc tr).
Proof.
  intros H. unfold luaL_dostring_setPaths, luaL_loadstring_setPaths. by rewrite H.
Qed.

Lemma pcall_nil (a1 a2 a3 : value) :
  lua_pcall w 3 0 0 (mk_machine (a3 :: a2 :: a1 :: VNil :: s) g pp pc tr)
  = Some (LUA_ERRRUN,
          mk_machine (VString (str "attempt to call a nil value") :: s) g pp pc tr).
Proof. done. Qed.

Lemma pcall_bridge_fault (basePath : lstring) (paths cpaths : gmap Z lstring)
    (path cpath msg : lstring) :
  bridge_fault w = Some msg ->
  setPaths basePath paths cpaths = Some (path, cpath) ->
  lua_pcall w 3 0 0
    (mk_machine (VTable cpaths :: VTable paths :: VString basePath ::
                 VFunction SetPathsFn :: s) g pp pc tr)
  = Some (LUA_ERRRUN,
          mk_machine (VString msg :: s) g
            (if fault_after_path w then path else pp) pc tr).
Proof.
  intros H Hset. unfold_pcall. by rewrite Hset, H.
Qed.

Lemma pcall_bridge_ok (basePath : lstring) (paths cpaths : gmap Z lstring)
    (path cpath : lstring) :
  bridge_fault w = None ->
  setPaths basePath paths cpaths = Some (path, cpath) ->
  lua_pcall w 3 0 0
    (mk_machine (VTable cpaths :: VTable paths :: VString basePath ::
                 VFunction SetPathsFn :: s) g pp pc tr)
  = Some (LUA_OK, mk_machine s g path cpath tr).
Proof.
  intros H Hset. unfold_pcall. by rewrite Hset, H.
Qed.

Lemma load_payload_ok (c : chunk) :
  payload_load_error w = None ->
  load_payload w c (mk_machine s g pp pc tr)
  = Some (LUA_OK,
          mk_machine (VFunction (ChunkFn c) :: s) g pp pc
            (tr ++ [EvLoadPayload c (lua (mk_machine s g pp pc tr))])).
Proof. intros H. unfold load_payload. by rewrite H. Qed.

Lemma load_payload_error (c : chunk) (msg : lstring) :
  payload_load_error w = Some msg ->
  load_payload w c (mk_machine s g pp pc tr)
  = Some (LUA_ERRSYNTAX,
          mk_machine (VString msg :: s) g pp pc
            (tr ++ [EvLoadPayload c (lua (mk_machine s g pp pc tr))])).
Proof. intros H. unfold load_payload. by rewrite H. Qed.

Lemma pcall_payload_ok (c : chunk) :
  c <> SetPathsChunk ->
  (forall msg, payload w <> PayloadRuntimeError msg) ->
  lua_pcall w 0 LUA_MULTRET 0 (mk_machine (VFunction (ChunkFn c) :: s) g pp pc tr)
  = Some (LUA_OK, mk_machine s g pp pc (tr ++ [EvRunPayload])).
Proof.
  intros Hc H. unfold_pcall.
  destruct c; [done| |]; by destruct (payload w) eqn:E; [| |exfalso; eapply H].
Qed.

Lemma pcall_payload_error (c : chunk) (msg : lstring) :
  c <> SetPathsChunk ->
  payload w = PayloadRuntimeError msg ->
  lua_pcall w 0 LUA_MULTRET 0 (mk_machine (VFunction (ChunkFn c) :: s) g pp pc tr)
  = Some (LUA_ERRRUN, mk_machine (VString msg :: s) g pp pc (tr ++ [EvRunPayload])).
Proof.
  intros Hc H. unfold_pcall.
  destruct c; [done| |]; by rewrite H.
Qed.

End Steps.

(** ** The configuration of the runtime *)

Ltac side :=
  first
    [ done
    | intros; lia
    | eassumption
    | intros; unfold payload_load_error;
      match goal with H : payload _ = _ |- _ => by rewrite H end ].

Ltac step lem := erewrite run_bind by (eapply lem; side).

Lemma configure_spec (MAJOR MINOR : lstring) (w : world) (prefix : lstring)
    (argv : list lstring) (tr : list event) :
  exists st,
    Launcher.configure MAJOR MINOR w prefix argv (mk_machine [] ∅ [] [] tr) =
      Some (tt, {| lua := st; trace := tr ++ bridge_report w |}) /\
    configured MAJOR MINOR w prefix argv st.
Proof.
  unfold Launcher.configure, configured.
  step openlibs_step. step newtable_step.
  step (for_each_rawseti (fun j => j)).
  step setglobal_step.
  unfold bridge_report, bridge_error, path_assigned.
  destruct (define_error w) as [dmsg|] eqn:Hdef.
  - step dostring_error.
    step getglobal_step.
    rewrite lookup_insert_ne, lookup_empty by done. cbn [default].
    step pushstring_step. step newtable_step.
    step (for_each_rawseti (fun j => j + 1)%Z).
    step newtable_step.
    step (for_each_rawseti (fun j => j + 1)%Z).
    step pcall_nil.
    rewrite bool_decide_eq_true_2 by done.
    step tostring_step.
    rewrite fprintf_step.
    eexists. split; [reflexivity|]. cbn [lua globals package_path package_cpath].
    split_and!.
    + by rewrite lookup_insert_eq.
    + done.
    + done.
  - step dostring_ok.
    step getglobal_step.
    rewrite lookup_insert_eq. cbn [default].
    step pushstring_step. step newtable_step.
    step (for_each_rawseti (fun j => j + 1)%Z).
    step newtable_step.
    step (for_each_rawseti (fun j => j + 1)%Z).
    destruct (setPaths_spec prefix (Launcher.LUA_PATHS MAJOR MINOR)
                (Launcher.LUA_CPATHS MAJOR MINOR)) as (es & ecs & _ & _ & Hset).
    destruct (bridge_fault w) as [fmsg|] eqn:Hfault.
    + step pcall_bridge_fault.
      rewrite bool_decide_eq_true_2 by done.
      step tostring_step.
      rewrite fprintf_step.
      eexists. split; [reflexivity|]. cbn [lua globals package_path package_cpath].
      split_and!.
      * rewrite lookup_insert_ne by done. by rewrite lookup_insert_eq.
      * done.
      * intros _. split; [done|].
        destruct (fault_after_path w); [by eexists | done].
    + step pcall_bridge_ok.
      rewrite bool_decide_eq_false_2 by (intros H; by apply H).
      eexists. split; [unfold mret, M_ret, mk_machine; by rewrite app_nil_r|].
      cbn [lua globals package_path package_cpath].
      split_and!.
      * rewrite lookup_insert_ne by done. by rewrite lookup_insert_eq.
      * done.
      * by intros [? ?].
Qed.

(** ** The two variants of [main] *)

Lemma launch_spec (MAJOR MINOR : lstring) (w : world) (argv : list lstring)
    (run_payload : lstring -> M Z) (prefix : lstring) :
  install_prefix w = Some prefix -> newstate w = true ->
  exists st,
    configured MAJOR MINOR w prefix argv st /\
    Launcher.launch MAJOR MINOR w argv run_payload =
      match run_payload prefix
              {| lua := st; trace := [EvNewState] ++ bridge_report w |} with
      | Some (status, m) => Some (status, trace m)
      | None => None
      end.
Proof.
  intros Hp Hn. unfold Launcher.launch, luaL_newstate. rewrite Hp, Hn.
  destruct (configure_spec MAJOR MINOR w prefix argv [EvNewState])
    as (st & Hrun & Hst).
  exists st. split; [done|].
  by erewrite run_bind by exact Hrun.
Qed.

Lemma launch_no_prefix (MAJOR MINOR : lstring) (w : world) (argv : list lstring)
    (run_payload : lstring -> M Z) :
  install_prefix w = None ->
  Launcher.launch MAJOR MINOR w argv run_payload =
    Some (1, [EvStderr (Launcher.appName ++
                        str ": Could not find executable path." ++ [LF])]).
Proof. intros H. unfold Launcher.launch. by rewrite H. Qed.

Lemma launch_no_state (MAJOR MINOR : lstring) (w : world) (argv : list lstring)
    (run_payload : lstring -> M Z) :
  is_Some (install_prefix w) -> newstate w = false ->
  Launcher.launch MAJOR MINOR w argv run_payload =
    Some (1, [EvStderr (Launcher.appName ++
                        str ": Failed to create Lua state." ++ [LF])]).
Proof.
  intros [p Hp] H. unfold Launcher.launch, luaL_newstate. by rewrite Hp, H.
Qed.

Section Payload.

Variables (w : world) (s : list value) (g : gmap string value)
  (pp pc : lstring) (tr : list event).

Local Abbreviation st :=
  {| stack := s; globals := g; package_path := pp; package_cpath := pc |}.

Lemma dofile_ok (fn : lstring) :
  payload w = PayloadOk ->
  luaL_dofile w fn (mk_machine s g pp pc tr)
  = Some (0, mk_machine s g pp pc
               (tr ++ [EvLoadPayload (FileChunk fn) st] ++ [EvRunPayload])).
Proof.
  intros H. unfold luaL_dofile, luaL_loadfile.
  step load_payload_ok.
  rewrite bool_decide_eq_false_2 by (intros E; by apply E).
  step pcall_payload_ok.
  rewrite bool_decide_eq_false_2 by (intros E; by apply E).
  unfold mret, M_ret. by rewrite <- app_assoc.
Qed.

Lemma dofile_syntax_error (fn msg : lstring) :
  payload w = PayloadSyntaxError msg ->
  luaL_dofile w fn (mk_machine s g pp pc tr)
  = Some (1, mk_machine (VString msg :: s) g pp pc
               (tr ++ [EvLoadPayload (FileChunk fn) st])).
Proof.
  intros H. unfold luaL_dofile, luaL_loadfile.
  step load_payload_error.
  by rewrite bool_decide_eq_true_2.
Qed.

Lemma dofile_runtime_error (fn msg : lstring) :
  payload w = PayloadRuntimeError msg ->
  luaL_dofile w fn (mk_machine s g pp pc tr)
  = Some (1, mk_machine (VString msg :: s) g pp pc
               (tr ++ [EvLoadPayload (FileChunk fn) st] ++ [EvRunPayload])).
Proof.
  intros H. unfold luaL_dofile, luaL_loadfile.
  step load_payload_ok.
  rewrite bool_decide_eq_false_2 by (intros E; by apply E).
  step pcall_payload_error.
  rewrite bool_decide_eq_true_2 by done.
  unfold mret, M_ret. by rewrite <- app_assoc.
Qed.

Lemma run_script_spec (prefix : lstring) :
  exists m,
    OnDisk.run_script w prefix {| lua := st; trace := tr |} =
      Some (fst (disk_outcome w), m) /\
    trace m = tr ++ [EvLoadPayload (FileChunk (prefix ++ str "\bin\ldoc.lua")) st]
                 ++ snd (disk_outcome w).
Proof.
  change {| lua := st; trace := tr |} with (mk_machine s g pp pc tr).
  unfold OnDisk.run_script, disk_outcome.
  destruct (payload w) as [|msg|msg] eqn:Hpay.
  - step dofile_ok.
    rewrite bool_decide_eq_false_2 by (intros E; by apply E).
    step close_step.
    eexists. split; [reflexivity|]. cbn [trace mk_machine fst snd].
    by rewrite <- !app_assoc.
  - step dofile_syntax_error.
    rewrite bool_decide_eq_true_2 by done.
    step tostring_step. step fprintf_step. step close_step.
    eexists. split; [reflexivity|]. cbn [trace mk_machine fst snd].
    by rewrite <- !app_assoc.
  - step dofile_runtime_error.
    rewrite bool_decide_eq_true_2 by done.
    step tostring_step. step fprintf_step. step close_step.
    eexists. split; [reflexivity|]. cbn [trace mk_machine fst snd].
    by rewrite <- !app_assoc.
Qed.

Lemma run_buffer_spec (bytes : lstring) (size : nat) (prefix : lstring) :
  exists m,
    Embedded.run_buffer w bytes size prefix {| lua := st; trace := tr |} =
      Some (fst (embedded_outcome w), m) /\
    trace m = tr ++ [EvLoadPayload (BufferChunk (take size bytes)) st]
                 ++ snd (embedded_outcome w).
Proof.
  change {| lua := st; trace := tr |} with (mk_machine s g pp pc tr).
  unfold Embedded.run_buffer, luaL_loadbuffer, embedded_outcome.
  destruct (payload w) as [|msg|msg] eqn:Hpay.
  - step load_payload_ok.
    rewrite bool_decide_eq_true_2 by done.
    rewrite run_bind_assoc.
    step pcall_payload_ok.
    rewrite bool_decide_eq_false_2 by (intros E; by apply E).
    erewrite run_bind by reflexivity.
    step close_step.
    eexists. split; [reflexivity|]. cbn [trace mk_machine fst snd].
    by rewrite <- !app_assoc.
  - step load_payload_error.
    rewrite bool_decide_eq_false_2 by done.
    rewrite run_bind_assoc.
    step tostring_step. step fprintf_step. step close_step.
    eexists. split; [reflexivity|]. cbn [trace mk_machine fst snd].
    by rewrite <- !app_assoc.
  - step load_payload_ok.
    rewrite bool_decide_eq_true_2 by done.
    rewrite run_bind_assoc.
    step pcall_payload_error.
    rewrite bool_decide_eq_true_2 by done.
    rewrite run_bind_assoc.
    step tostring_step. step fprintf_step. step close_step.
    eexists. split; [reflexivity|]. cbn [trace mk_machine fst snd].
    by rewrite <- !app_assoc.
Qed.

End Payload.

Lemma disk_main_spec (MAJOR MINOR : lstring) (w : world) (argv : list lstring)
    (prefix : lstring) :
  install_prefix w = Some prefix -> newstate w = true ->
  exists st,
    configured MAJOR MINOR w prefix argv st /\
    OnDisk.main MAJOR MINOR w argv =
      Some (fst (disk_outcome w),
            [EvNewState] ++ bridge_report w ++
            [EvLoadPayload (FileChunk (prefix ++ str "\bin\ldoc.lua")) st] ++
            snd (disk_outcome w)).
Proof.
  intros Hp Hn. unfold OnDisk.main.
  destruct (launch_spec MAJOR MINOR w argv (OnDisk.run_script w) prefix Hp Hn)
    as (st & Hst & ->).
  exists st. split; [done|]. destruct st as [s g pp pc].
  destruct (run_script_spec w s g pp pc ([EvNewState] ++ bridge_report w) prefix)
    as (m & -> & ->).
  by rewrite <- !app_assoc.
Qed.

Lemma embedded_main_spec (MAJOR MINOR : lstring) (bytes : lstring) (size : nat)
    (w : world) (argv : list lstring) (prefix : lstring) :
  install_prefix w = Some prefix -> newstate w = true ->
  exists st,
    configured MAJOR MINOR w prefix argv st /\
    Embedded.main MAJOR MINOR bytes size w argv =
      Some (fst (embedded_outcome w),
            [EvNewState] ++ bridge_report w ++
            [EvLoadPayload (BufferChunk (take size bytes)) st] ++
            snd (embedded_outcome w)).
Proof.
  intros Hp Hn. unfold Embedded.main.
  destruct (launch_spec MAJOR MINOR w argv (Embedded.run_buffer w bytes size)
              prefix Hp Hn) as (st & Hst & ->).
  exists st. split; [done|]. destruct st as [s g pp pc].
  destruct (run_buffer_spec w s g pp pc ([EvNewState] ++ bridge_report w)
              bytes size prefix) as (m & -> & ->).
  by rewrite <- !app_assoc.
Qed.

(** Every run with a runtime has the same shape: the creation, the report
    of the bridge routine if its call failed, the loading of the payload in
    a configured state, and what the variant does from there on. *)
Lemma run_shape (MAJOR MINOR : lstring) (w : world) (argv : list lstring)
    (r : option (Z * list event)) :
  run_of MAJOR MINOR w argv r -> runtime_created w ->
  exists prefix st c outcome,
    install_prefix w = Some prefix /\
    configured MAJOR MINOR w prefix argv st /\
    (outcome = disk_outcome w \/ outcome = embedded_outcome w) /\
    r = Some (fst outcome,
              [EvNewState] ++ bridge_report w ++ [EvLoadPayload c st] ++ snd outcome).
Proof.
  intros Hr [[prefix Hp] Hn]. destruct Hr as [|bytes size].
  - destruct (disk_main_spec MAJOR MINOR w argv prefix Hp Hn) as (st & Hst & ->).
    exists prefix, st, (FileChunk (prefix ++ str "\bin\ldoc.lua")), (disk_outcome w).
    by split_and!; [| |left|].
  - destruct (embedded_main_spec MAJOR MINOR bytes size w argv prefix Hp Hn)
      as (st & Hst & ->).
    exists prefix, st, (BufferChunk (take size bytes)), (embedded_outcome w).
    by split_and!; [| |right|].
Qed.

(** ** The arguments *)

(** C5. In every run with a runtime, of either variant, the payload finds
    the global table [arg] with [argv[i]] under the key [i] for every
    [0 <= i < argc], index 0 included, and with no other key. *)
Theorem C5_arg_table (MAJOR MINOR : lstring) (w : world) (argv : list lstring)
    (r : option (Z * list event)) :
  run_of MAJOR MINOR w argv r -> runtime_created w ->
  payload_sees r (arg_is argv).
Proof.
  intros Hr Hw.
  destruct (run_shape _ _ _ _ _ Hr Hw)
    as (prefix & st & c & outcome & _ & (Harg & _) & _ & ->).
  exists (fst outcome), ([EvNewState] ++ bridge_report w ++
                         [EvLoadPayload c st] ++ snd outcome), c, st.
  split_and!; [done|set_solver|].
  exists (table_from argv 0 ∅). split; [done|]. intros i.
  rewrite table_from_lookup, lookup_empty.
  rewrite Z.add_0_l, Z.sub_0_r. done.
Qed.

Lemma C5_arg_table_witness :
  payload_sees
    (OnDisk.main (str "5") (str "4") (world_with PayloadOk)
       [str "exe"; str "a"; str "b"])
    (arg_is [str "exe"; str "a"; str "b"]).
Proof.
  apply (C5_arg_table (str "5") (str "4") (world_with PayloadOk)
           [str "exe"; str "a"; str "b"]).
  - apply run_disk.
  - split; [by eexists | reflexivity].
Defined.

(** ** The release of the runtime state *)

Lemma bridge_report_no_state_event (w : world) :
  List.filter is_close (bridge_report w) = [] /\
  List.filter is_newstate (bridge_report w) = [].
Proof. unfold bridge_report. by destruct (bridge_error w). Qed.

Lemma outcome_closes_once (w : world) (outcome : Z * list event) :
  outcome = disk_outcome w \/ outcome = embedded_outcome w ->
  length (List.filter is_close (snd outcome)) = 1%nat /\
  List.filter is_newstate (snd outcome) = [] /\
  last (snd outcome) = Some EvClose.
Proof.
  unfold disk_outcome, embedded_outcome.
  intros [-> | ->]; by destruct (payload w).
Qed.

(** C6. In every run in which the runtime state is created, of either
    variant and whatever the payload does (it runs, it does not compile, it
    raises), the state is created once and closed once, and the closing is
    the last thing that the process does. *)
Theorem C6_state_closed_once (MAJOR MINOR : lstring) (w : world)
    (argv : list lstring) (r : option (Z * list event)) :
  run_of MAJOR MINOR w argv r -> runtime_created w ->
  exists status tr,
    r = Some (status, tr) /\
    length (List.filter is_newstate tr) = 1%nat /\
    length (List.filter is_close tr) = 1%nat /\
    last tr = Some EvClose.
Proof.
  intros Hr Hw.
  destruct (run_shape _ _ _ _ _ Hr Hw)
    as (prefix & st & c & outcome & _ & _ & Hout & ->).
  destruct (outcome_closes_once w outcome Hout) as (Hc & Hn & Hl).
  destruct (bridge_report_no_state_event w) as (Hbc & Hbn).
  eexists _, _. split; [reflexivity|].
  rewrite !List.filter_app, Hbc, Hbn, Hn, !length_app, Hc.
  split_and!; [done..|].
  rewrite !app_assoc. destruct (snd outcome) as [|e l] using rev_ind; [done|].
  rewrite !app_assoc, last_snoc. by rewrite last_snoc in Hl.
Qed.

Lemma C6_state_closed_once_witness :
  exists status tr,
    Embedded.main (str "5") (str "4") (str "x = ") 4
      (world_with (PayloadSyntaxError (str "unexpected symbol"))) [str "exe"]
    = Some (status, tr) /\
    length (List.filter is_newstate tr) = 1%nat /\
    length (List.filter is_close tr) = 1%nat /\
    last tr = Some EvClose.
Proof.
  apply (C6_state_closed_once (str "5") (str "4")
           (world_with (PayloadSyntaxError (str "unexpected symbol")))
           [str "exe"]).
  - apply run_embedded.
  - split; [by eexists | reflexivity].
Defined.

(** ** Failures of the bridge routine *)

Lemma bridge_report_error (w : world) (msg : lstring) :
  bridge_error w = Some msg -> bridge_report w = [setting_paths_report msg].
Proof. intros H. unfold bridge_report. by rewrite H. Qed.

Lemma without_bridge_error_created (w : world) :
  runtime_created w -> runtime_created (without_bridge_error w).
Proof. by intros [Hp Hn]. Qed.

(** C7. When the call of the bridge routine fails, the launcher writes the
    message to standard error and goes on to load the payload; the exit
    status is the one of the same run without the failure, and it is 0 when
    the payload runs without error.  This holds in both variants. *)
Theorem C7_bridge_failure_not_fatal (MAJOR MINOR : lstring) (bytes : lstring)
    (size : nat) (w : world) (argv : list lstring) (msg : lstring) :
  runtime_created w -> bridge_error w = Some msg ->
  (exists status c st after,
     OnDisk.main MAJOR MINOR w argv =
       Some (status,
             [EvNewState; setting_paths_report msg; EvLoadPayload c st] ++ after) /\
     exit_status (OnDisk.main MAJOR MINOR (without_bridge_error w) argv) =
       Some status /\
     (payload w = PayloadOk -> status = 0 /\ EvRunPayload ∈ after)) /\
  (exists status c st after,
     Embedded.main MAJOR MINOR bytes size w argv =
       Some (status,
             [EvNewState; setting_paths_report msg; EvLoadPayload c st] ++ after) /\
     exit_status (Embedded.main MAJOR MINOR bytes size (without_bridge_error w) argv) =
       Some status /\
     (payload w = PayloadOk -> status = 0 /\ EvRunPayload ∈ after)).
Proof.
  intros [[prefix Hp] Hn] Herr. split.
  - destruct (disk_main_spec MAJOR MINOR w argv prefix Hp Hn) as (st & _ & ->).
    destruct (disk_main_spec MAJOR MINOR (without_bridge_error w) argv prefix Hp Hn)
      as (st' & _ & ->).
    rewrite (bridge_report_error w msg Herr).
    eexists _, _, _, _. split_and!; [reflexivity|done|].
    unfold disk_outcome. intros ->. split; [done|set_solver].
  - destruct (embedded_main_spec MAJOR MINOR bytes size w argv prefix Hp Hn)
      as (st & _ & ->).
    destruct (embedded_main_spec MAJOR MINOR bytes size (without_bridge_error w)
                argv prefix Hp Hn) as (st' & _ & ->).
    rewrite (bridge_report_error w msg Herr).
    eexists _, _, _, _. split_and!; [reflexivity|done|].
    unfold embedded_outcome. intros ->. split; [done|set_solver].
Qed.

Lemma C7_bridge_failure_not_fatal_witness :
  (exists status c st after,
     OnDisk.main (str "5") (str "4") world_bridge_fault [str "exe"] =
       Some (status,
             [EvNewState; setting_paths_report (str "not enough memory");
              EvLoadPayload c st] ++ after) /\
     exit_status (OnDisk.main (str "5") (str "4")
                    (without_bridge_error world_bridge_fault) [str "exe"]) =
       Some status /\
     (payload world_bridge_fault = PayloadOk -> status = 0 /\ EvRunPayload ∈ after)) /\
  (exists status c st after,
     Embedded.main (str "5") (str "4") (str "x=1") 3 world_bridge_fault [str "exe"] =
       Some (status,
             [EvNewState; setting_paths_report (str "not enough memory");
              EvLoadPayload c st] ++ after) /\
     exit_status (Embedded.main (str "5") (str "4") (str "x=1") 3
                    (without_bridge_error world_bridge_fault) [str "exe"]) =
       Some status /\
     (payload world_bridge_fault = PayloadOk -> status = 0 /\ EvRunPayload ∈ after)).
Proof.
  apply (C7_bridge_failure_not_fatal (str "5") (str "4") (str "x=1") 3
           world_bridge_fault [str "exe"] (str "not enough memory")).
  - split; [by eexists | reflexivity].
  - reflexivity.
Defined.

(** C10. The result of [luaL_dostring] on the injected chunk is not looked
    at.  In every run with a runtime, of either variant, the payload is
    loaded, and it is run right after when it compiles; and when the
    definition of the bridge routine fails, the call of the undefined
    global is reported as [Error setting paths] right before the payload is
    loaded, and run when it compiles. *)
Theorem C10_payload_always_loaded (MAJOR MINOR : lstring) (w : world)
    (argv : list lstring) (r : option (Z * list event)) :
  run_of MAJOR MINOR w argv r -> runtime_created w ->
  payload_sees r (fun _ => True) /\
  ((forall msg, payload w <> PayloadSyntaxError msg) ->
   exists status before c st after,
     r = Some (status, before ++ [EvLoadPayload c st; EvRunPayload] ++ after)) /\
  (is_Some (define_error w) ->
   exists status c st after,
     r = Some (status,
               [EvNewState;
                setting_paths_report (str "attempt to call a nil value");
                EvLoadPayload c st] ++ after) /\
     ((forall msg, payload w <> PayloadSyntaxError msg) ->
      head after = Some EvRunPayload)).
Proof.
  intros Hr Hw.
  destruct (run_shape _ _ _ _ _ Hr Hw)
    as (prefix & st & c & outcome & _ & _ & Hout & ->).
  assert ((forall msg, payload w <> PayloadSyntaxError msg) ->
          exists after, snd outcome = EvRunPayload :: after) as Hrun.
  { intros Hpay. unfold disk_outcome, embedded_outcome in Hout.
    destruct Hout as [-> | ->]; destruct (payload w) as [|msg|msg];
      try (by eexists); by destruct (Hpay msg). }
  split_and!.
  - eexists _, _, c, st. split_and!; [reflexivity| |done].
    rewrite !elem_of_app. right; right; left. apply list_elem_of_here.
  - intros Hpay. destruct (Hrun Hpay) as [after ->].
    exists (fst outcome), ([EvNewState] ++ bridge_report w), c, st, after.
    by rewrite <- !app_assoc.
  - intros [d Hd].
    rewrite (bridge_report_error w (str "attempt to call a nil value"))
      by (unfold bridge_error; by rewrite Hd).
    eexists _, _, _, _. split; [reflexivity|].
    intros Hpay. by destruct (Hrun Hpay) as [after ->].
Qed.

Lemma C10_payload_always_loaded_witness :
  payload_sees (OnDisk.main (str "5") (str "4") world_define_error [str "exe"])
    (fun _ => True) /\
  ((forall msg, payload world_define_error <> PayloadSyntaxError msg) ->
   exists status before c st after,
     OnDisk.main (str "5") (str "4") world_define_error [str "exe"] =
       Some (status, before ++ [EvLoadPayload c st; EvRunPayload] ++ after)) /\
  (is_Some (define_error world_define_error) ->
   exists status c st after,
     OnDisk.main (str "5") (str "4") world_define_error [str "exe"] =
       Some (status,
             [EvNewState;
              setting_paths_report (str "attempt to call a nil value");
              EvLoadPayload c st] ++ after) /\
     ((forall msg, payload world_define_error <> PayloadSyntaxError msg) ->
      head after = Some EvRunPayload)).
Proof.
  apply (C10_payload_always_loaded (str "5") (str "4") world_define_error
           [str "exe"]).
  - apply run_disk.
  - split; [by eexists | reflexivity].
Defined.

(** ** The diagnostics *)



Lemma bridge_report_lines (w : world) (line : lstring) :
  line ∈ omap stderr_line (bridge_report w) ->
  exists msg, line = Launcher.appName ++ str ": " ++
                     str "Error setting paths" ++ str ": " ++ msg ++ [LF].
Proof.
  unfold bridge_report. destruct (bridge_error w) as [msg|]; cbn.
  - intros ->%list_elem_of_singleton. by exists msg.
  - by intros ?%elem_of_nil.
Qed.

Lemma outcome_lines (w : world) (outcome : Z * list event) (line : lstring) :
  outcome = disk_outcome w \/ outcome = embedded_outcome w ->
  line ∈ omap stderr_line (snd outcome) ->
  exists category msg,
    category ∈ categories /\
    line = Launcher.appName ++ str ": " ++ category ++ str ": " ++ msg ++ [LF].
Proof.
  unfold disk_outcome, embedded_outcome, categories.
  intros [-> | ->]; destruct (payload w) as [|msg|msg]; cbn;
    intros Hl; try (by apply elem_of_nil in Hl);
    apply list_elem_of_singleton in Hl as ->.
  - exists (str "Error"), msg. split; [set_solver|done].
  - exists (str "Error"), msg. split; [set_solver|done].
  - exists (str "Syntax error in embedded code"), msg. split; [set_solver|done].
  - exists (str "Runtime error"), msg. split; [set_solver|done].
Qed.

Lemma stderr_of_run (status : Z) (br : list event) (c : chunk) (st : lua_State)
    (tail : list event) :
  stderr_of (Some (status, [EvNewState] ++ br ++ [EvLoadPayload c st] ++ tail)) =
  omap stderr_line br ++ omap stderr_line tail.
Proof. cbn [stderr_of]. by rewrite !omap_app. Qed.





(** The variant that runs the script from disk does not tell the two
    failures apart: a script that does not compile and a script that
    raises, with the same message, leave the same line on standard error. *)
Lemma C2_counterexample :
  ~ (forall MAJOR MINOR : lstring,
       distinguishes_failures (OnDisk.main MAJOR MINOR) /\
       forall bytes size,
         distinguishes_failures (Embedded.main MAJOR MINOR bytes size)).
Proof.
  intros H. destruct (H (str "5") (str "4")) as [Hdisk _].
  apply (Hdisk (world_with (PayloadSyntaxError (str "ldoc.lua:1: unexpected symbol")))
               (world_with (PayloadRuntimeError (str "ldoc.lua:1: unexpected symbol")))
               [str "exe"]
               (str "ldoc.lua:1: unexpected symbol")
               (str "ldoc.lua:1: unexpected symbol")).
  - split; [by eexists | reflexivity].
  - split; [by eexists | reflexivity].
  - reflexivity.
  - reflexivity.
  - by vm_compute.
Qed.

(** The last line on standard error of a run with a failed payload, in
    both variants. *)
Theorem C2_payload_diagnostics (MAJOR MINOR : lstring) (bytes : lstring)
    (size : nat) (w1 w2 : world) (argv : list lstring) (m1 m2 : lstring) :
  runtime_created w1 -> runtime_created w2 ->
  payload w1 = PayloadSyntaxError m1 ->
  payload w2 = PayloadRuntimeError m2 ->
  last (stderr_of (Embedded.main MAJOR MINOR bytes size w1 argv)) =
    Some (Launcher.appName ++ str ": Syntax error in embedded code: " ++ m1 ++ [LF]) /\
  last (stderr_of (Embedded.main MAJOR MINOR bytes size w2 argv)) =
    Some (Launcher.appName ++ str ": Runtime error: " ++ m2 ++ [LF]) /\
  last (stderr_of (Embedded.main MAJOR MINOR bytes size w1 argv)) <>
    last (stderr_of (Embedded.main MAJOR MINOR bytes size w2 argv)) /\
  last (stderr_of (OnDisk.main MAJOR MINOR w1 argv)) =
    Some (Launcher.appName ++ str ": Error: " ++ m1 ++ [LF]) /\
  last (stderr_of (OnDisk.main MAJOR MINOR w2 argv)) =
    Some (Launcher.appName ++ str ": Error: " ++ m2 ++ [LF]).
Proof.
  intros [[p1 Hp1] Hn1] [[p2 Hp2] Hn2] H1 H2.
  destruct (embedded_main_spec MAJOR MINOR bytes size w1 argv p1 Hp1 Hn1)
    as (st1 & _ & ->).
  destruct (embedded_main_spec MAJOR MINOR bytes size w2 argv p2 Hp2 Hn2)
    as (st2 & _ & ->).
  destruct (disk_main_spec MAJOR MINOR w1 argv p1 Hp1 Hn1) as (st3 & _ & ->).
  destruct (disk_main_spec MAJOR MINOR w2 argv p2 Hp2 Hn2) as (st4 & _ & ->).
  rewrite !stderr_of_run. unfold embedded_outcome, disk_outcome.
  rewrite H1, H2. cbn [snd omap list_omap stderr_line].
  rewrite !last_snoc.
  split_and!; [done..| |done|done].
  by intros [= H].
Qed.

Lemma C2_payload_diagnostics_witness :
  last (stderr_of (Embedded.main (str "5") (str "4") (str "x = ") 4
          (world_with (PayloadSyntaxError (str "unexpected symbol"))) [str "exe"])) =
    Some (Launcher.appName ++ str ": Syntax error in embedded code: " ++
          str "unexpected symbol" ++ [LF]) /\
  last (stderr_of (Embedded.main (str "5") (str "4") (str "x = ") 4
          (world_with (PayloadRuntimeError (str "no such file"))) [str "exe"])) =
    Some (Launcher.appName ++ str ": Runtime error: " ++ str "no such file" ++ [LF]) /\
  last (stderr_of (Embedded.main (str "5") (str "4") (str "x = ") 4
          (world_with (PayloadSyntaxError (str "unexpected symbol"))) [str "exe"])) <>
    last (stderr_of (Embedded.main (str "5") (str "4") (str "x = ") 4
          (world_with (PayloadRuntimeError (str "no such file"))) [str "exe"])) /\
  last (stderr_of (OnDisk.main (str "5") (str "4")
          (world_with (PayloadSyntaxError (str "unexpected symbol"))) [str "exe"])) =
    Some (Launcher.appName ++ str ": Error: " ++ str "unexpected symbol" ++ [LF]) /\
  last (stderr_of (OnDisk.main (str "5") (str "4")
          (world_with (PayloadRuntimeError (str "no such file"))) [str "exe"])) =
    Some (Launcher.appName ++ str ": Error: " ++ str "no such file" ++ [LF]).
Proof.
  apply (C2_payload_diagnostics (str "5") (str "4") (str "x = ") 4
           (world_with (PayloadSyntaxError (str "unexpected symbol")))
           (world_with (PayloadRuntimeError (str "no such file")))
           [str "exe"] (str "unexpected symbol") (str "no such file")).
  - split; [by eexists | reflexivity].
  - split; [by eexists | reflexivity].
  - reflexivity.
  - reflexivity.
Defined.

(** C2 does not hold of the variant that runs the script from disk: a
    script that does not compile and a script that raises are both reported
    under the prefix [Error], and with the same message the two lines are
    the same.  The variant with the embedded payload reports them as
    [Syntax error in embedded code] and as [Runtime error]. *)
Theorem C2_disk_failures_share_prefix :
  last (stderr_of (OnDisk.main (str "5") (str "4")
          (world_with (PayloadSyntaxError (str "ldoc.lua:1: unexpected symbol")))
          [str "ldoc.exe"])) =
    Some (str "ldoc.exe: Error: ldoc.lua:1: unexpected symbol" ++ [LF]) /\
  last (stderr_of (OnDisk.main (str "5") (str "4")
          (world_with (PayloadRuntimeError (str "ldoc.lua:1: unexpected symbol")))
          [str "ldoc.exe"])) =
    Some (str "ldoc.exe: Error: ldoc.lua:1: unexpected symbol" ++ [LF]) /\
  last (stderr_of (Embedded.main (str "5") (str "4") (str "x = ") 4
          (world_with (PayloadSyntaxError (str "ldoc.lua:1: unexpected symbol")))
          [str "ldoc.exe"])) =
    Some (str "ldoc.exe: Syntax error in embedded code: ldoc.lua:1: unexpected symbol"
          ++ [LF]) /\
  last (stderr_of (Embedded.main (str "5") (str "4") (str "x = ") 4
          (world_with (PayloadRuntimeError (str "ldoc.lua:1: unexpected symbol")))
          [str "ldoc.exe"])) =
    Some (str "ldoc.exe: Runtime error: ldoc.lua:1: unexpected symbol" ++ [LF]).
Proof. by vm_compute. Qed.

(** ** The exit status *)

Lemma disk_exit_status (MAJOR MINOR : lstring) (w : world) (argv : list lstring) :
  runtime_created w ->
  exit_status (OnDisk.main MAJOR MINOR w argv) =
    Some (match payload w with PayloadOk => 0 | _ => 1 end).
Proof.
  intros [[prefix Hp] Hn].
  destruct (disk_main_spec MAJOR MINOR w argv prefix Hp Hn) as (st & _ & ->).
  unfold disk_outcome. by destruct (payload w).
Qed.

Lemma embedded_exit_status (MAJOR MINOR : lstring) (bytes : lstring) (size : nat)
    (w : world) (argv : list lstring) :
  runtime_created w ->
  exit_status (Embedded.main MAJOR MINOR bytes size w argv) = Some 0.
Proof.
  intros [[prefix Hp] Hn].
  destruct (embedded_main_spec MAJOR MINOR bytes size w argv prefix Hp Hn)
    as (st & _ & ->).
  unfold embedded_outcome. by destruct (payload w).
Qed.

(** C1 does not hold of the variant with the embedded payload: a payload
    that does not compile, and one that raises, are reported on standard
    error and the exit status is 0 all the same.  The variant that runs the
    script from disk returns 1 in both cases. *)
Theorem C1_embedded_failure_exits_zero :
  exit_status (Embedded.main (str "5") (str "4") (str "x = ") 4
                 (world_with (PayloadSyntaxError (str "unexpected symbol")))
                 [str "ldoc.exe"]) = Some 0 /\
  exit_status (Embedded.main (str "5") (str "4") (str "error('boom')") 13
                 (world_with (PayloadRuntimeError (str "ldoc.lua:1: boom")))
                 [str "ldoc.exe"]) = Some 0 /\
  exit_status (OnDisk.main (str "5") (str "4")
                 (world_with (PayloadSyntaxError (str "unexpected symbol")))
                 [str "ldoc.exe"]) = Some 1 /\
  exit_status (OnDisk.main (str "5") (str "4")
                 (world_with (PayloadRuntimeError (str "ldoc.lua:1: boom")))
                 [str "ldoc.exe"]) = Some 1.
Proof.
  assert (forall p, runtime_created (world_with p)) as Hw
    by (intros p; split; [by eexists | reflexivity]).
  rewrite !embedded_exit_status, !disk_exit_status by apply Hw. done.
Qed.

(** ** The conversion of the script into a header *)

Lemma format_hex_byte (c : ascii) (s : lstring) :
  format_hex (hex_of_byte c ++ s) =
  str "0x" ++ hex_of_byte c ++ str "," ++ format_hex s.
Proof. destruct c as [[] [] [] [] [] [] [] []]; reflexivity. Qed.

Lemma array_elements_byte (c : ascii) (rest : lstring) :
  array_elements (str "0x" ++ hex_of_byte c ++ str "," ++ rest) =
  match array_elements rest with
  | Some bs => Some (c :: bs)
  | None => None
  end.
Proof. destruct c as [[] [] [] [] [] [] [] []]; reflexivity. Qed.

Lemma array_elements_formatted (content tail : lstring) :
  array_elements (format_hex (file_read_hex content) ++ tail) =
  match array_elements tail with
  | Some bs => Some (content ++ bs)
  | None => None
  end.
Proof.
  induction content as [|c content IH].
  - cbn. by destruct (array_elements tail).
  - unfold file_read_hex in *. cbn [map concat].
    rewrite format_hex_byte, <- !app_assoc, array_elements_byte, IH.
    by destruct (array_elements tail).
Qed.

(** The array of the generated header holds the cleaned content and one
    more byte, 0. *)
Lemma ldoc_source_bytes_spec (clean : lstring) :
  ldoc_source_bytes clean = Some (clean ++ [NUL]).
Proof.
  unfold ldoc_source_bytes, initializer. cbn [app array_elements].
  change (Ascii.eqb LF LF || Ascii.eqb LF ",") with true. cbn match.
  by rewrite array_elements_formatted.
Qed.

(** The length of the generated header counts the cleaned content and not
    the byte added at the end. *)
Lemma ldoc_source_size_spec (clean : lstring) :
  (Z.of_nat (length clean) < 2 ^ 32)%Z ->
  ldoc_source_size (clean ++ [NUL]) = length clean.
Proof.
  intros H. unfold ldoc_source_size. rewrite length_app. cbn [length].
  rewrite Z.mod_small by lia. lia.
Qed.

Lemma embedded_chunk_spec (CMP0186 : bool) (CONTENT : lstring) :
  (Z.of_nat (length (clean_content CMP0186 CONTENT)) < 2 ^ 32)%Z ->
  embedded_chunk CMP0186 CONTENT = Some (clean_content CMP0186 CONTENT).
Proof.
  intros H. unfold embedded_chunk.
  rewrite ldoc_source_bytes_spec, ldoc_source_size_spec by done.
  by rewrite take_app_length.
Qed.

Lemma rest_of_line_spec (s : lstring) :
  match rest_of_line s with
  | Some r => LF ∈ s /\ after_first_line s = r /\ (length r < length s)%nat
  | None => LF ∉ s
  end.
Proof.
  induction s as [|c s IH]; cbn [rest_of_line after_first_line].
  - by intros ?%elem_of_nil.
  - destruct (Ascii.eqb_spec c LF) as [->|Hne].
    + rewrite bool_decide_eq_true_2 by done.
      split_and!; [apply list_elem_of_here | done | simpl; lia].
    + rewrite bool_decide_eq_false_2 by done.
      destruct (rest_of_line s) as [r|].
      * destruct IH as (Hin & Heq & Hlen).
        split_and!; [by apply list_elem_of_further | done | simpl; lia].
      * intros [?|?]%elem_of_cons; [congruence | done].
Qed.

Lemma match_directive_spec (content : lstring) :
  match match_directive content with
  | Some rest =>
      without_directive_line content = rest /\ (length rest < length content)%nat
  | None => without_directive_line content = content
  end.
Proof.
  unfold match_directive, without_directive_line.
  destruct content as [|c1 [|c2 rest]].
  - by rewrite bool_decide_eq_false_2 by (intros [k Hk]; discriminate Hk).
  - rewrite bool_decide_eq_false_2; [done|].
    intros [k Hk]. cbn in Hk. by destruct k.
  - destruct (Ascii.eqb_spec c1 "#") as [->|H1];
      [destruct (Ascii.eqb_spec c2 "!") as [->|H2]|]; cbn [andb].
    + rewrite bool_decide_eq_true_2 by (by exists rest).
      pose proof (rest_of_line_spec rest) as Hr.
      destruct (rest_of_line rest) as [r|].
      * destruct Hr as (Hin & Heq & Hlen).
        rewrite bool_decide_eq_true_2
          by (by apply list_elem_of_further, list_elem_of_further).
        cbn [andb after_first_line].
        rewrite !bool_decide_eq_false_2 by done.
        split; [done | simpl; lia].
      * rewrite (bool_decide_eq_false_2 (LF ∈ _)); [done|].
        intros [?|[?|?]%elem_of_cons]%elem_of_cons; done.
    + rewrite bool_decide_eq_false_2; [done|].
      intros [k Hk]. cbn in Hk. congruence.
    + rewrite bool_decide_eq_false_2; [done|].
      intros [k Hk]. cbn in Hk. congruence.
Qed.

(** With the new behaviour of the policy, the script removes the one
    leading line that starts with [#!]. *)
Lemma clean_content_new (CONTENT : lstring) :
  clean_content true CONTENT = without_directive_line CONTENT.
Proof.
  unfold clean_content. pose proof (match_directive_spec CONTENT) as H.
  destruct (match_directive CONTENT); [by destruct H | done].
Qed.

(** With the old behaviour, it does so when the second line does not start
    with [#!] as well. *)
Lemma clean_content_old (CONTENT : lstring) :
  match_directive (without_directive_line CONTENT) = None ->
  clean_content false CONTENT = without_directive_line CONTENT.
Proof.
  unfold clean_content. intros Hnone.
  pose proof (match_directive_spec CONTENT) as H.
  destruct (length CONTENT) as [|n] eqn:Hlen; cbn [replace_loop].
  - apply nil_length_inv in Hlen. by subst.
  - destruct (match_directive CONTENT) as [rest|]; [|done].
    destruct H as [H _]. rewrite H in *.
    destruct n; cbn [replace_loop]; [done|]. by rewrite Hnone.
Qed.

(** With the old behaviour, what is left never starts with a line that
    starts with [#!]: every such leading line is removed. *)
Lemma replace_loop_fixpoint (fuel : nat) (input : lstring) :
  (length input <= fuel)%nat ->
  match_directive (replace_loop fuel input) = None.
Proof.
  revert input. induction fuel as [|fuel IH]; intros input Hlen; cbn [replace_loop].
  - destruct input; [done | simpl in Hlen; lia].
  - pose proof (match_directive_spec input) as H.
    destruct (match_directive input) as [rest|] eqn:E; [|done].
    apply IH. lia.
Qed.

(** C9 does not hold of the script as CMake runs it: of a text with two
    leading lines that start with [#!], the specification keeps the second
    one, and the script removes both, so the chunk that the launcher hands
    to the runtime is not the text without its first line. *)
Theorem C9_every_leading_directive_line_removed :
  without_directive_line two_directives = text ["#!second"; "print(1)"]%string /\
  clean_content false two_directives = text ["print(1)"]%string /\
  ldoc_source_bytes (clean_content false two_directives) =
    Some (text ["print(1)"]%string ++ [NUL]) /\
  embedded_chunk false two_directives = Some (text ["print(1)"]%string).
Proof. by vm_compute. Qed.

(** * Further properties *)

(** ** Cleaning is determined by its result *)

Lemma leading_unique (c : ascii) (k k' : nat) (a b : lstring) :
  replicate k c ++ a = replicate k' c ++ b ->
  head a <> Some c -> head b <> Some c -> a = b.
Proof.
  revert k'. induction k as [|k IH]; intros [|k'] H Ha Hb; cbn in H.
  - done.
  - subst a. by destruct Ha.
  - subst b. by destruct Hb.
  - injection H as H. by apply (IH k').
Qed.

Lemma trailing_unique (c : ascii) (k k' : nat) (a b : lstring) :
  a ++ replicate k c = b ++ replicate k' c ->
  last a <> Some c -> last b <> Some c -> a = b.
Proof.
  intros H Ha Hb. apply (inj reverse).
  apply (leading_unique c k k'); rewrite ?head_reverse; [|done..].
  apply (f_equal reverse) in H.
  by rewrite !reverse_app, !reverse_replicate in H.
Qed.

Lemma trailing_removed_unique (c : ascii) (s a b : lstring) :
  trailing_removed c s a -> trailing_removed c s b -> a = b.
Proof.
  intros [[k Hk] Ha] [[k' Hk'] Hb].
  apply (trailing_unique c k k'); [congruence | done..].
Qed.

Lemma replicate_middle_nil (c : ascii) (n i j : nat) (b : lstring) :
  replicate n c = replicate i c ++ b ++ replicate j c ->
  head b <> Some c -> b = [].
Proof.
  intros H Hb. destruct b as [|x b]; [done|]. exfalso. apply Hb. cbn. f_equal.
  assert (x ∈ replicate n c) as Hx by (rewrite H; set_solver).
  by apply elem_of_replicate in Hx as [-> _].
Qed.

Lemma both_removed_unique (c : ascii) (s a b : lstring) :
  both_removed c s a -> both_removed c s b -> a = b.
Proof.
  intros ((i & j & Hs) & Ha & Ha') ((i' & j' & Hs') & Hb & Hb').
  destruct a as [|x a].
  - symmetry. apply (replicate_middle_nil c (i + j) i' j'); [|done].
    rewrite <- Hs', Hs. cbn [app]. by rewrite replicate_add.
  - destruct b as [|y b].
    + apply (replicate_middle_nil c (i' + j') i j); [|done].
      rewrite <- Hs, Hs'. cbn [app]. by rewrite replicate_add.
    + assert ((x :: a) ++ replicate j c = (y :: b) ++ replicate j' c) as H.
      { apply (leading_unique c i i'); [congruence | done..]. }
      by apply (trailing_unique c j j').
Qed.

(** ** Entries of the search paths *)

(** X1. The entry of the bridge routine does not change when separators
    are added at the end of the root or at either end of the template. *)
Theorem entry_of_outer_separators (R T : lstring) (k i j : nat) :
  entry_of (R ++ replicate k sep) (replicate i sep ++ T ++ replicate j sep)
  = entry_of R T.
Proof.
  destruct (entry_of_spec R T) as (cR & cT & HR & HT & ->).
  destruct (entry_of_spec (R ++ replicate k sep)
              (replicate i sep ++ T ++ replicate j sep))
    as (cR' & cT' & HR' & HT' & ->).
  assert (cR' = cR) as ->.
  { apply (trailing_removed_unique sep (R ++ replicate k sep)); [done|].
    destruct HR as [[n Hn] Hl]. split; [|done]. exists (n + k)%nat.
    by rewrite Hn, <- app_assoc, replicate_add. }
  assert (cT' = cT) as ->; [|done].
  apply (both_removed_unique sep (replicate i sep ++ T ++ replicate j sep));
    [done|].
  destruct HT as ((n & m & Hn) & Hh & Hl). split; [|done].
  exists (i + n)%nat, (m + j)%nat.
  by rewrite Hn, !replicate_add, <- !app_assoc.
Qed.

(** X2. A root that does not end with a separator and a template that
    neither starts nor ends with one are joined as they are: separators
    inside of them are kept. *)
Theorem entry_of_clean (R T : lstring) :
  last R <> Some sep -> head T <> Some sep -> last T <> Some sep ->
  entry_of R T = Some (R ++ [sep] ++ T).
Proof.
  intros HR HT HT'.
  destruct (entry_of_spec R T) as (cR & cT & HcR & HcT & ->).
  assert (cR = R) as ->.
  { apply (trailing_removed_unique sep R); [done|].
    split; [exists O; by rewrite app_nil_r | done]. }
  assert (cT = T) as ->; [|done].
  apply (both_removed_unique sep T); [done|].
  split; [exists O, O; by rewrite app_nil_r | done].
Qed.

Lemma entry_of_clean_witness :
  entry_of (str "C:\opt\\lua") (str "share\\lua\?.lua")
  = Some (str "C:\opt\\lua" ++ [sep] ++ str "share\\lua\?.lua").
Proof. apply (entry_of_clean (str "C:\opt\\lua")); by vm_compute. Defined.

(** X3. A root made of separators only, the empty root included, gives an
    entry that starts with one separator; a template made of separators
    only, the empty template included, gives an entry that ends with the
    one separator of the join. *)
Theorem entry_of_degenerate (R T : lstring) (k : nat) :
  (exists cleanT, both_removed sep T cleanT /\
                  entry_of (replicate k sep) T = Some ([sep] ++ cleanT)) /\
  (exists cleanR, trailing_removed sep R cleanR /\
                  entry_of R (replicate k sep) = Some (cleanR ++ [sep])).
Proof.
  split.
  - destruct (entry_of_spec (replicate k sep) T) as (cR & cT & HR & HT & ->).
    exists cT. split; [done|].
    assert (cR = []) as ->; [|done].
    apply (trailing_removed_unique sep (replicate k sep)); [done|].
    split; [by exists k | done].
  - destruct (entry_of_spec R (replicate k sep)) as (cR & cT & HR & HT & ->).
    exists cR. split; [done|].
    assert (cT = []) as ->; [|done].
    apply (both_removed_unique sep (replicate k sep)); [done|].
    split; [exists k, O; cbn [app]; by rewrite app_nil_r | done].
Qed.

(** X4. The bridge routine reads a list of templates up to its first
    absent key: with nothing under the key 1, the empty table included,
    it assigns the empty string, whatever the other keys hold. *)
Theorem setPaths_without_first_key (R : lstring) (paths cpaths : gmap Z lstring) :
  paths !! 1 = None ->
  (exists cpath, setPaths R paths cpaths = Some ([], cpath)) /\
  (exists path, setPaths R cpaths paths = Some (path, [])).
Proof.
  intros H1.
  assert (ipairs paths = []) as Hip.
  { unfold ipairs. destruct (size paths); cbn [ipairs_from]; [done|].
    by rewrite H1. }
  unfold setPaths. rewrite Hip.
  destruct (gsub_trailing R) as (cR & n & -> & _).
  destruct (insert_all_spec cR (ipairs cpaths) []) as (es & _ & ->).
  cbn [insert_all table_concat]. split; by eexists.
Qed.

Lemma setPaths_without_first_key_witness :
  (exists cpath,
     setPaths (str "C:\opt") (<[2 := str "bin\?.lua"]> ∅) (sequence [str "bin\?.dll"])
     = Some ([], cpath)) /\
  (exists path,
     setPaths (str "C:\opt") (sequence [str "bin\?.dll"]) (<[2 := str "bin\?.lua"]> ∅)
     = Some (path, [])).
Proof.
  apply (setPaths_without_first_key (str "C:\opt") (<[2 := str "bin\?.lua"]> ∅)).
  reflexivity.
Defined.

(** ** The state in which the payload is loaded *)

Lemma configure_state (MAJOR MINOR : lstring) (w : world) (prefix : lstring)
    (argv : list lstring) (tr : list event) :
  exists st,
    Launcher.configure MAJOR MINOR w prefix argv (mk_machine [] ∅ [] [] tr) =
      Some (tt, {| lua := st; trace := tr ++ bridge_report w |}) /\
    configured MAJOR MINOR w prefix argv st /\
    stack st = leftover_stack w /\
    globals st !! "setPaths"%string =
      match define_error w with
      | Some _ => None
      | None => Some (VFunction SetPathsFn)
      end.
Proof.
  unfold Launcher.configure, configured, leftover_stack.
  step openlibs_step. step newtable_step.
  step (for_each_rawseti (fun j => j)).
  step setglobal_step.
  unfold bridge_report, bridge_error, path_assigned.
  destruct (define_error w) as [dmsg|] eqn:Hdef.
  - step dostring_error.
    step getglobal_step.
    rewrite lookup_insert_ne, lookup_empty by done. cbn [default].
    step pushstring_step. step newtable_step.
    step (for_each_rawseti (fun j => j + 1)%Z).
    step newtable_step.
    step (for_each_rawseti (fun j => j + 1)%Z).
    step pcall_nil.
    rewrite bool_decide_eq_true_2 by done.
    step tostring_step.
    rewrite fprintf_step.
    eexists. split; [reflexivity|].
    cbn [lua stack globals package_path package_cpath mk_machine].
    split_and!; [by rewrite lookup_insert_eq|done..|].
    by rewrite lookup_insert_ne, lookup_empty.
  - step dostring_ok.
    step getglobal_step.
    rewrite lookup_insert_eq. cbn [default].
    step pushstring_step. step newtable_step.
    step (for_each_rawseti (fun j => j + 1)%Z).
    step newtable_step.
    step (for_each_rawseti (fun j => j + 1)%Z).
    destruct (setPaths_spec prefix (Launcher.LUA_PATHS MAJOR MINOR)
                (Launcher.LUA_CPATHS MAJOR MINOR)) as (es & ecs & _ & _ & Hset).
    destruct (bridge_fault w) as [fmsg|] eqn:Hfault.
    + step pcall_bridge_fault.
      rewrite bool_decide_eq_true_2 by done.
      step tostring_step.
      rewrite fprintf_step.
      eexists. split; [reflexivity|].
      cbn [lua stack globals package_path package_cpath mk_machine].
      split_and!; [|done| |done|by rewrite lookup_insert_eq].
      * rewrite lookup_insert_ne by done. by rewrite lookup_insert_eq.
      * intros _. split; [done|].
        destruct (fault_after_path w); [by eexists | done].
    + step pcall_bridge_ok.
      rewrite bool_decide_eq_false_2 by (intros H; by apply H).
      eexists. split; [unfold mret, M_ret, mk_machine; by rewrite app_nil_r|].
      cbn [lua stack globals package_path package_cpath].
      split_and!; [|done|by intros [? ?]|done|by rewrite lookup_insert_eq].
      rewrite lookup_insert_ne by done. by rewrite lookup_insert_eq.
Qed.

(** Every run with a runtime: the state [st] in which the payload is
    loaded, the chunk [c] of the variant, and what follows. *)
Lemma run_state (MAJOR MINOR : lstring) (w : world) (argv : list lstring)
    (r : option (Z * list event)) :
  run_of MAJOR MINOR w argv r -> runtime_created w ->
  exists prefix st c outcome,
    install_prefix w = Some prefix /\
    configured MAJOR MINOR w prefix argv st /\
    stack st = leftover_stack w /\
    globals st !! "setPaths"%string =
      match define_error w with
      | Some _ => None
      | None => Some (VFunction SetPathsFn)
      end /\
    (outcome = disk_outcome w \/ outcome = embedded_outcome w) /\
    r = Some (fst outcome,
              [EvNewState] ++ bridge_report w ++ [EvLoadPayload c st] ++ snd outcome).
Proof.
  intros Hr [[prefix Hp] Hn].
  destruct (configure_state MAJOR MINOR w prefix argv [EvNewState])
    as (st & Hrun & Hconf & Hstack & Hglob).
  exists prefix, st. destruct st as [s g pp pc]. destruct Hr as [|bytes size].
  - exists (FileChunk (prefix ++ str "\bin\ldoc.lua")), (disk_outcome w).
    split_and!; [done..|by left|].
    unfold OnDisk.main, Launcher.launch, luaL_newstate. rewrite Hp, Hn.
    erewrite run_bind by exact Hrun.
    destruct (run_script_spec w s g pp pc ([EvNewState] ++ bridge_report w) prefix)
      as (m & -> & ->).
    by rewrite <- !app_assoc.
  - exists (BufferChunk (take size bytes)), (embedded_outcome w).
    split_and!; [done..|by right|].
    unfold Embedded.main, Launcher.launch, luaL_newstate. rewrite Hp, Hn.
    erewrite run_bind by exact Hrun.
    destruct (run_buffer_spec w s g pp pc ([EvNewState] ++ bridge_report w)
                bytes size prefix) as (m & -> & ->).
    by rewrite <- !app_assoc.
Qed.

Lemma run_state_sees (MAJOR MINOR : lstring) (w : world) (argv : list lstring)
    (r : option (Z * list event)) (P : lua_State -> Prop) :
  run_of MAJOR MINOR w argv r -> runtime_created w ->
  (forall prefix st,
     install_prefix w = Some prefix ->
     configured MAJOR MINOR w prefix argv st ->
     stack st = leftover_stack w ->
     globals st !! "setPaths"%string =
       match define_error w with
       | Some _ => None
       | None => Some (VFunction SetPathsFn)
       end ->
     P st) ->
  payload_sees r P.
Proof.
  intros Hr Hw HP.
  destruct (run_state _ _ _ _ _ Hr Hw)
    as (prefix & st & c & outcome & Hp & Hconf & Hstack & Hglob & _ & ->).
  eexists _, _, c, st. split_and!; [reflexivity | set_solver | by eapply HP].
Qed.

(** X6. The launcher leaves its error messages on the Lua stack: the
    payload is loaded over an empty stack when the bridge routine was
    defined and called without error, over the message of the failed call
    otherwise, and over the message of the failed definition below it when
    the definition failed. *)
Theorem payload_stack_leftovers (MAJOR MINOR : lstring) (w : world)
    (argv : list lstring) (r : option (Z * list event)) :
  run_of MAJOR MINOR w argv r -> runtime_created w ->
  payload_sees r (fun st => stack st = leftover_stack w) /\
  (leftover_stack w = [] <-> bridge_error w = None).
Proof.
  intros Hr Hw. split.
  - apply (run_state_sees MAJOR MINOR w argv); [done..|]. by intros.
  - unfold leftover_stack, bridge_error.
    destruct (define_error w); [done|]. by destruct (bridge_fault w).
Qed.

Lemma payload_stack_leftovers_witness :
  payload_sees (OnDisk.main (str "5") (str "4") world_define_error [str "exe"])
    (fun st => stack st = leftover_stack world_define_error) /\
  (leftover_stack world_define_error = [] <-> bridge_error world_define_error = None).
Proof.
  apply (payload_stack_leftovers (str "5") (str "4") world_define_error [str "exe"]).
  - apply run_disk.
  - split; [by eexists | reflexivity].
Defined.

(** X7. The bridge routine stays defined as the global [setPaths] for the
    payload, unless its definition failed, in which case the global is
    absent. *)
Theorem payload_sees_bridge_global (MAJOR MINOR : lstring) (w : world)
    (argv : list lstring) (r : option (Z * list event)) :
  run_of MAJOR MINOR w argv r -> runtime_created w ->
  payload_sees r (fun st =>
    globals st !! "setPaths"%string =
      match define_error w with
      | Some _ => None
      | None => Some (VFunction SetPathsFn)
      end).
Proof.
  intros Hr Hw. apply (run_state_sees MAJOR MINOR w argv); [done..|]. by intros.
Qed.

Lemma payload_sees_bridge_global_witness :
  payload_sees
    (Embedded.main (str "5") (str "4") (str "x=1") 3 (world_with PayloadOk) [str "exe"])
    (fun st => globals st !! "setPaths"%string = Some (VFunction SetPathsFn)).
Proof.
  apply (payload_sees_bridge_global (str "5") (str "4") (world_with PayloadOk)
           [str "exe"]).
  - apply run_embedded.
  - split; [by eexists | reflexivity].
Defined.

(** ** The search paths of the launcher *)

Lemma entry_of_clean_template (R cleanR T : lstring) :
  trailing_removed sep R cleanR ->
  head T <> Some sep -> last T <> Some sep ->
  entry_of R T = Some (cleanR ++ [sep] ++ T).
Proof.
  intros HR HT HT'.
  destruct (entry_of_spec R T) as (cR & cT & HcR & HcT & ->).
  rewrite (trailing_removed_unique sep R cR cleanR) by done.
  assert (cT = T) as ->; [|done].
  apply (both_removed_unique sep T); [done|].
  split; [exists O, O; by rewrite app_nil_r | done].
Qed.

Lemma entries_of_clean_templates (R cleanR : lstring) (ts es : list lstring) :
  trailing_removed sep R cleanR ->
  Forall (fun T => head T <> Some sep /\ last T <> Some sep) ts ->
  Forall2 (fun T e => entry_of R T = Some e) ts es ->
  es = prefixed cleanR ts.
Proof.
  intros HR Hts Hes. induction Hes as [|T e ts es He Hes IH]; [done|].
  apply Forall_cons in Hts as [[Hh Hl] Hts].
  rewrite (entry_of_clean_template R cleanR T) in He by done.
  injection He as <-. cbn [prefixed map]. f_equal. by apply IH.
Qed.

Lemma LUA_PATHS_clean (MAJOR MINOR : lstring) :
  Forall (fun T => head T <> Some sep /\ last T <> Some sep)
    (Launcher.LUA_PATHS MAJOR MINOR).
Proof.
  unfold Launcher.LUA_PATHS.
  repeat (apply Forall_cons; split; [split; [done|rewrite ?last_app; done]|]).
  apply Forall_nil_2.
Qed.

Lemma LUA_CPATHS_clean (MAJOR MINOR : lstring) :
  Forall (fun T => head T <> Some sep /\ last T <> Some sep)
    (Launcher.LUA_CPATHS MAJOR MINOR).
Proof.
  unfold Launcher.LUA_CPATHS.
  repeat (apply Forall_cons; split; [split; [done|rewrite ?last_app; done]|]).
  apply Forall_nil_2.
Qed.

(** X8. When the bridge routine is defined and called without error, the
    payload finds in [package.path] the eight templates of [LUA_PATHS] and
    in [package.cpath] the four of [LUA_CPATHS], unchanged, in their order,
    each one behind the install prefix without its trailing separators and
    one separator: the defaults of the runtime are replaced, and every
    entry, also those of the templates that start with a dot, lies under
    the install prefix. *)
Theorem payload_sees_launcher_paths (MAJOR MINOR : lstring) (w : world)
    (argv : list lstring) (r : option (Z * list event)) (prefix : lstring) :
  run_of MAJOR MINOR w argv r -> runtime_created w ->
  bridge_error w = None -> install_prefix w = Some prefix ->
  exists cleanPrefix,
    trailing_removed sep prefix cleanPrefix /\
    payload_sees r (fun st =>
      package_path st =
        table_concat (prefixed cleanPrefix (Launcher.LUA_PATHS MAJOR MINOR))
          [path_sep] /\
      package_cpath st =
        table_concat (prefixed cleanPrefix (Launcher.LUA_CPATHS MAJOR MINOR))
          [path_sep]).
Proof.
  intros Hr Hw Hok Hp.
  destruct (gsub_trailing prefix) as (cleanPrefix & n & _ & Hclean).
  exists cleanPrefix. split; [done|].
  apply (run_state_sees MAJOR MINOR w argv); [done..|].
  intros prefix' st Hp' (_ & Hset & _) _ _.
  assert (prefix' = prefix) as -> by congruence.
  specialize (Hset Hok).
  destruct (setPaths_spec prefix (Launcher.LUA_PATHS MAJOR MINOR)
              (Launcher.LUA_CPATHS MAJOR MINOR)) as (es & ecs & Hes & Hecs & Heq).
  rewrite Heq in Hset. injection Hset as <- <-.
  rewrite (entries_of_clean_templates prefix cleanPrefix _ es Hclean
             (LUA_PATHS_clean MAJOR MINOR) Hes).
  by rewrite (entries_of_clean_templates prefix cleanPrefix _ ecs Hclean
                (LUA_CPATHS_clean MAJOR MINOR) Hecs).
Qed.

Lemma payload_sees_launcher_paths_witness :
  exists cleanPrefix,
    trailing_removed sep (str "C:\opt\OneLuaPro") cleanPrefix /\
    payload_sees
      (OnDisk.main (str "5") (str "4") (world_with PayloadOk) [str "exe"])
      (fun st =>
         package_path st =
           table_concat (prefixed cleanPrefix (Launcher.LUA_PATHS (str "5") (str "4")))
             [path_sep] /\
         package_cpath st =
           table_concat (prefixed cleanPrefix (Launcher.LUA_CPATHS (str "5") (str "4")))
             [path_sep]).
Proof.
  apply (payload_sees_launcher_paths (str "5") (str "4") (world_with PayloadOk)
           [str "exe"]).
  - apply run_disk.
  - split; [by eexists | reflexivity].
  - reflexivity.
  - reflexivity.
Defined.

(** X5. When the call of the bridge routine fails, the payload finds
    [package.cpath] as [luaL_openlibs] left it.  It finds [package.path] as
    [luaL_openlibs] left it too when the global was undefined or the error
    was raised before the first assignment of the routine; when the error
    was raised after that assignment, [package.path] is the one of the
    launcher, beside the default [package.cpath]. *)
Theorem bridge_failure_search_paths (MAJOR MINOR : lstring) (w : world)
    (argv : list lstring) (r : option (Z * list event)) (prefix : lstring) :
  run_of MAJOR MINOR w argv r -> runtime_created w ->
  is_Some (bridge_error w) -> install_prefix w = Some prefix ->
  exists cleanPrefix,
    trailing_removed sep prefix cleanPrefix /\
    payload_sees r (fun st =>
      package_cpath st = default_cpath w /\
      package_path st =
        if path_assigned w then
          table_concat (prefixed cleanPrefix (Launcher.LUA_PATHS MAJOR MINOR))
            [path_sep]
        else default_path w).
Proof.
  intros Hr Hw Herr Hp.
  destruct (gsub_trailing prefix) as (cleanPrefix & n & _ & Hclean).
  exists cleanPrefix. split; [done|].
  apply (run_state_sees MAJOR MINOR w argv); [done..|].
  intros prefix' st Hp' (_ & _ & Hfail) _ _.
  assert (prefix' = prefix) as -> by congruence.
  destruct (Hfail Herr) as [Hc Hpath]. split; [done|].
  destruct (path_assigned w); [|done].
  destruct Hpath as [cpath Hset].
  destruct (setPaths_spec prefix (Launcher.LUA_PATHS MAJOR MINOR)
              (Launcher.LUA_CPATHS MAJOR MINOR)) as (es & ecs & Hes & _ & Heq).
  rewrite Heq in Hset. injection Hset as <- _.
  by rewrite (entries_of_clean_templates prefix cleanPrefix _ es Hclean
                (LUA_PATHS_clean MAJOR MINOR) Hes).
Qed.

Lemma bridge_failure_search_paths_witness :
  exists cleanPrefix,
    trailing_removed sep (str "C:\opt\OneLuaPro") cleanPrefix /\
    payload_sees
      (OnDisk.main (str "5") (str "4") world_bridge_fault_late [str "exe"])
      (fun st =>
         package_cpath st = default_cpath world_bridge_fault_late /\
         package_path st =
           if path_assigned world_bridge_fault_late then
             table_concat
               (prefixed cleanPrefix (Launcher.LUA_PATHS (str "5") (str "4")))
               [path_sep]
           else default_path world_bridge_fault_late).
Proof.
  apply (bridge_failure_search_paths (str "5") (str "4") world_bridge_fault_late
           [str "exe"]).
  - apply run_disk.
  - split; [by eexists | reflexivity].
  - by eexists.
  - reflexivity.
Defined.

(** ** The arguments, as the payload iterates over them *)

Lemma ipairs_from_enough (fuel : nat) (t : gmap Z lstring) (vs : list lstring)
    (i : Z) :
  (length vs <= fuel)%nat ->
  (forall k : nat, (k < length vs)%nat -> t !! (i + Z.of_nat k)%Z = vs !! k) ->
  t !! (i + Z.of_nat (length vs))%Z = None ->
  ipairs_from fuel t i = vs.
Proof.
  revert i vs. induction fuel as [|fuel IH]; intros i vs Hlen Hvs Hend.
  - destruct vs; [done | simpl in Hlen; lia].
  - cbn [ipairs_from]. destruct vs as [|v vs].
    + cbn [length] in Hend. rewrite Z.add_0_r in Hend. by rewrite Hend.
    + specialize (Hvs O) as H0. rewrite Z.add_0_r in H0.
      rewrite H0 by (simpl; lia). cbn [lookup list_lookup]. f_equal.
      apply IH.
      * simpl in Hlen. lia.
      * intros k Hk.
        replace (i + 1 + Z.of_nat k)%Z with (i + Z.of_nat (S k))%Z by lia.
        rewrite Hvs by (simpl; lia). done.
      * rewrite <- Hend. f_equal. cbn [length]. lia.
Qed.

(** X9. [ipairs(arg)] gives the payload the arguments after the name of
    the executable, [argv[1]] to [argv[argc-1]], in order; the name under
    the key 0 is not part of the iteration. *)
Theorem payload_iterates_user_arguments (MAJOR MINOR : lstring) (w : world)
    (argv : list lstring) (r : option (Z * list event)) :
  run_of MAJOR MINOR w argv r -> runtime_created w ->
  payload_sees r (fun st =>
    exists t, globals st !! "arg"%string = Some (VTable t) /\
              ipairs t = drop 1 argv).
Proof.
  intros Hr Hw. apply (run_state_sees MAJOR MINOR w argv); [done..|].
  intros prefix st _ (Harg & _) _ _.
  exists (table_from argv 0 ∅). split; [done|].
  unfold ipairs. apply ipairs_from_enough.
  - rewrite table_from_size by (intros; apply lookup_empty).
    rewrite map_size_empty, length_drop. lia.
  - intros k Hk. rewrite length_drop in Hk.
    rewrite table_from_lookup, bool_decide_eq_true_2 by lia.
    rewrite lookup_drop. f_equal. lia.
  - rewrite table_from_lookup, length_drop.
    case_bool_decide as H; [|apply lookup_empty].
    apply lookup_ge_None. lia.
Qed.

Lemma payload_iterates_user_arguments_witness :
  payload_sees
    (OnDisk.main (str "5") (str "4") (world_with PayloadOk)
       [str "exe"; str "a"; str "b"])
    (fun st =>
       exists t, globals st !! "arg"%string = Some (VTable t) /\
                 ipairs t = drop 1 [str "exe"; str "a"; str "b"]).
Proof.
  apply (payload_iterates_user_arguments (str "5") (str "4")
           (world_with PayloadOk) [str "exe"; str "a"; str "b"]).
  - apply run_disk.
  - split; [by eexists | reflexivity].
Defined.

(** ** Start-up failures, exit status, output *)

(** X10. When the path of the executable does not resolve, or when no
    runtime state can be created, [main] writes its one line and returns
    1: no state is created, nothing is loaded or closed, and the arguments
    play no part.  The first failure comes first: with an unresolved path
    the creation of the state is not tried. *)
Theorem startup_failure (MAJOR MINOR : lstring) (w : world)
    (argv : list lstring) (r : option (Z * list event)) :
  run_of MAJOR MINOR w argv r -> ~ runtime_created w ->
  r = Some (1, [EvStderr
                  (Launcher.appName ++
                   (match install_prefix w with
                    | None => str ": Could not find executable path."
                    | Some _ => str ": Failed to create Lua state."
                    end) ++ [LF])]).
Proof.
  intros Hr Hw. destruct (install_prefix w) as [prefix|] eqn:Hp.
  - assert (newstate w = false) as Hn.
    { destruct (newstate w) eqn:Hn; [|done].
      destruct Hw. split; [by rewrite Hp | done]. }
    assert (is_Some (install_prefix w)) as Hsome by (by rewrite Hp).
    destruct Hr; unfold OnDisk.main, Embedded.main;
      by rewrite launch_no_state.
  - destruct Hr; unfold OnDisk.main, Embedded.main;
      by rewrite launch_no_prefix.
Qed.

Lemma startup_failure_witness :
  OnDisk.main (str "5") (str "4") world_unresolved [str "exe"; str "--help"] =
  Some (1, [EvStderr
              (Launcher.appName ++
               (match install_prefix world_unresolved with
                | None => str ": Could not find executable path."
                | Some _ => str ": Failed to create Lua state."
                end) ++ [LF])]).
Proof.
  apply (startup_failure (str "5") (str "4") world_unresolved
           [str "exe"; str "--help"]).
  - apply run_disk.
  - intros [[p Hp] _]. discriminate Hp.
Defined.

(** X11. The variant that runs the script from disk returns 0 when the
    runtime was created and the script loaded and ran without error, and 1
    in every other case; a failure of the bridge routine plays no part. *)
Theorem disk_exit_status_total (MAJOR MINOR : lstring) (w : world)
    (argv : list lstring) :
  exit_status (OnDisk.main MAJOR MINOR w argv) =
  Some (match install_prefix w, newstate w, payload w with
        | Some _, true, PayloadOk => 0
        | _, _, _ => 1
        end).
Proof.
  destruct (install_prefix w) as [prefix|] eqn:Hp.
  - destruct (newstate w) eqn:Hn.
    + rewrite disk_exit_status by (split; [by rewrite Hp | done]).
      by destruct (payload w).
    + unfold OnDisk.main. by rewrite launch_no_state by (by rewrite ?Hp).
  - unfold OnDisk.main. by rewrite launch_no_prefix.
Qed.

(** X12. The variant with the embedded payload returns 1 for the two
    start-up failures and 0 in every other case, whatever the payload and
    the bridge routine do. *)
Theorem embedded_exit_status_total (MAJOR MINOR : lstring) (bytes : lstring)
    (size : nat) (w : world) (argv : list lstring) :
  exit_status (Embedded.main MAJOR MINOR bytes size w argv) =
  Some (match install_prefix w, newstate w with
        | Some _, true => 0
        | _, _ => 1
        end).
Proof.
  destruct (install_prefix w) as [prefix|] eqn:Hp.
  - destruct (newstate w) eqn:Hn.
    + by rewrite embedded_exit_status by (split; [by rewrite Hp | done]).
    + unfold Embedded.main. by rewrite launch_no_state by (by rewrite ?Hp).
  - unfold Embedded.main. by rewrite launch_no_prefix.
Qed.

Lemma outcome_stderr (w : world) (outcome : Z * list event) :
  outcome = disk_outcome w \/ outcome = embedded_outcome w ->
  length (omap stderr_line (snd outcome)) =
    match payload w with PayloadOk => 0%nat | _ => 1%nat end.
Proof.
  unfold disk_outcome, embedded_outcome.
  intros [-> | ->]; by destruct (payload w).
Qed.

(** X13. A run with a runtime writes nothing to standard error exactly
    when the call of the bridge routine and the payload both succeed, and
    never more than two lines: one for the bridge routine, one for the
    payload. *)
Theorem stderr_silent_on_success (MAJOR MINOR : lstring) (w : world)
    (argv : list lstring) (r : option (Z * list event)) :
  run_of MAJOR MINOR w argv r -> runtime_created w ->
  length (stderr_of r) =
    ((match bridge_error w with None => 0 | Some _ => 1 end) +
     (match payload w with PayloadOk => 0 | _ => 1 end))%nat /\
  (stderr_of r = [] <-> bridge_error w = None /\ payload w = PayloadOk).
Proof.
  intros Hr Hw.
  destruct (run_shape _ _ _ _ _ Hr Hw)
    as (prefix & st & c & outcome & _ & _ & Hout & ->).
  assert (length (stderr_of
            (Some (fst outcome,
                   [EvNewState] ++ bridge_report w ++
                   [EvLoadPayload c st] ++ snd outcome))) =
          ((match bridge_error w with None => 0 | Some _ => 1 end) +
           (match payload w with PayloadOk => 0 | _ => 1 end))%nat) as Hlen.
  { rewrite stderr_of_run, length_app, (outcome_stderr w outcome Hout).
    unfold bridge_report. by destruct (bridge_error w). }
  split; [done|]. split.
  - intros Hnil. rewrite Hnil in Hlen. cbn [length] in Hlen.
    destruct (bridge_error w); [lia|]. destruct (payload w); [done|lia..].
  - intros [Hb Hpay]. rewrite Hb, Hpay in Hlen. by apply nil_length_inv.
Qed.

Lemma stderr_silent_on_success_witness :
  length (stderr_of (OnDisk.main (str "5") (str "4") (world_with PayloadOk)
                       [str "exe"])) =
    ((match bridge_error (world_with PayloadOk) with None => 0 | Some _ => 1 end) +
     (match payload (world_with PayloadOk) with PayloadOk => 0 | _ => 1 end))%nat /\
  (stderr_of (OnDisk.main (str "5") (str "4") (world_with PayloadOk) [str "exe"]) = []
   <-> bridge_error (world_with PayloadOk) = None /\
       payload (world_with PayloadOk) = PayloadOk).
Proof.
  apply (stderr_silent_on_success (str "5") (str "4") (world_with PayloadOk)
           [str "exe"]).
  - apply run_disk.
  - split; [by eexists | reflexivity].
Defined.

Lemma outcome_loads_runs (w : world) (outcome : Z * list event) :
  outcome = disk_outcome w \/ outcome = embedded_outcome w ->
  List.filter is_load (snd outcome) = [] /\
  length (List.filter is_run (snd outcome)) =
    match payload w with PayloadSyntaxError _ => 0%nat | _ => 1%nat end.
Proof.
  unfold disk_outcome, embedded_outcome.
  intros [-> | ->]; by destruct (payload w).
Qed.

(** X14. In every run with a runtime the payload is loaded once, and it is
    run once unless it does not compile, in which case it is not run at
    all; it is never run before it is loaded. *)
Theorem payload_loaded_once (MAJOR MINOR : lstring) (w : world)
    (argv : list lstring) (r : option (Z * list event)) :
  run_of MAJOR MINOR w argv r -> runtime_created w ->
  length (List.filter is_load (trace_of r)) = 1%nat /\
  length (List.filter is_run (trace_of r)) =
    match payload w with PayloadSyntaxError _ => 0%nat | _ => 1%nat end /\
  exists before c st after,
    trace_of r = before ++ [EvLoadPayload c st] ++ after /\
    List.filter is_run before = [].
Proof.
  intros Hr Hw.
  destruct (run_shape _ _ _ _ _ Hr Hw)
    as (prefix & st & c & outcome & _ & _ & Hout & ->).
  destruct (outcome_loads_runs w outcome Hout) as [Hl Hrun].
  assert (List.filter is_load (bridge_report w) = [] /\
          List.filter is_run (bridge_report w) = []) as [Hbl Hbr].
  { unfold bridge_report. by destruct (bridge_error w). }
  cbn [trace_of]. split_and!.
  - by rewrite !List.filter_app, Hbl, Hl.
  - by rewrite !List.filter_app, Hbr, !length_app, Hrun.
  - exists ([EvNewState] ++ bridge_report w), c, st, (snd outcome).
    split; [by rewrite <- app_assoc|].
    by rewrite List.filter_app, Hbr.
Qed.

Lemma payload_loaded_once_witness :
  length (List.filter is_load
            (trace_of (Embedded.main (str "5") (str "4") (str "x = ") 4
               (world_with (PayloadSyntaxError (str "unexpected symbol")))
               [str "exe"]))) = 1%nat /\
  length (List.filter is_run
            (trace_of (Embedded.main (str "5") (str "4") (str "x = ") 4
               (world_with (PayloadSyntaxError (str "unexpected symbol")))
               [str "exe"]))) =
    match payload (world_with (PayloadSyntaxError (str "unexpected symbol"))) with
    | PayloadSyntaxError _ => 0%nat
    | _ => 1%nat
    end /\
  exists before c st after,
    trace_of (Embedded.main (str "5") (str "4") (str "x = ") 4
                (world_with (PayloadSyntaxError (str "unexpected symbol")))
                [str "exe"]) = before ++ [EvLoadPayload c st] ++ after /\
    List.filter is_run before = [].
Proof.
  apply (payload_loaded_once (str "5") (str "4")
           (world_with (PayloadSyntaxError (str "unexpected symbol")))
           [str "exe"]).
  - apply run_embedded.
  - split; [by eexists | reflexivity].
Defined.

(** X15. The script that the on-disk variant loads is the file
    [\bin\ldoc.lua] behind the install prefix as it is: unlike the bridge
    routine, [main] does not remove trailing separators of the prefix, and
    the outcome of the bridge routine and the arguments play no part. *)
Theorem disk_script_path (MAJOR MINOR : lstring) (w : world)
    (argv : list lstring) (prefix : lstring) :
  install_prefix w = Some prefix -> newstate w = true ->
  exists st,
    List.filter is_load (trace_of (OnDisk.main MAJOR MINOR w argv)) =
    [EvLoadPayload (FileChunk (prefix ++ str "\bin\ldoc.lua")) st].
Proof.
  intros Hp Hn.
  destruct (disk_main_spec MAJOR MINOR w argv prefix Hp Hn) as (st & _ & ->).
  exists st. cbn [trace_of].
  destruct (outcome_loads_runs w (disk_outcome w)) as [Hl _]; [by left|].
  rewrite !List.filter_app, Hl.
  unfold bridge_report. by destruct (bridge_error w).
Qed.

Lemma disk_script_path_witness :
  exists st,
    List.filter is_load
      (trace_of (OnDisk.main (str "5") (str "4") world_bridge_fault [str "exe"])) =
    [EvLoadPayload (FileChunk (str "C:\opt\OneLuaPro" ++ str "\bin\ldoc.lua")) st].
Proof.
  apply (disk_script_path (str "5") (str "4") world_bridge_fault [str "exe"]
           (str "C:\opt\OneLuaPro")); reflexivity.
Defined.

(** ** The conversion script *)

(** X16. For every cleaned content, the array that the C++ compiler reads
    in the generated header (the hexadecimal digits of [file(READ ... HEX)]
    cut in pairs, written as [0xhh,]) holds the bytes of the content, in
    order, and one more byte, 0. *)
Theorem header_array_round_trip (CLEAN_CONTENT : lstring) :
  ldoc_source_bytes CLEAN_CONTENT = Some (CLEAN_CONTENT ++ [NUL]).
Proof. apply ldoc_source_bytes_spec. Qed.

(** X17. For a cleaned content of less than 2^32 bytes, [ldoc_source_size]
    is its number of bytes, and the chunk made of the first
    [ldoc_source_size] bytes of the array is the cleaned content: the byte
    0 at the end of the array is not part of it. *)
Theorem header_size_and_chunk (CMP0186 : bool) (CONTENT bytes : lstring) :
  (Z.of_nat (length (clean_content CMP0186 CONTENT)) < 2 ^ 32)%Z ->
  ldoc_source_bytes (clean_content CMP0186 CONTENT) = Some bytes ->
  ldoc_source_size bytes = length (clean_content CMP0186 CONTENT) /\
  take (ldoc_source_size bytes) bytes = clean_content CMP0186 CONTENT /\
  embedded_chunk CMP0186 CONTENT = Some (clean_content CMP0186 CONTENT).
Proof.
  intros Hlen Hbytes. rewrite ldoc_source_bytes_spec in Hbytes.
  injection Hbytes as <-.
  rewrite ldoc_source_size_spec by done.
  split_and!; [done | by rewrite take_app_length | by apply embedded_chunk_spec].
Qed.

Lemma header_size_and_chunk_witness :
  ldoc_source_size (text ["print(1)"]%string ++ [NUL]) =
    length (clean_content false two_directives) /\
  take (ldoc_source_size (text ["print(1)"]%string ++ [NUL]))
    (text ["print(1)"]%string ++ [NUL]) = clean_content false two_directives /\
  embedded_chunk false two_directives = Some (clean_content false two_directives).
Proof.
  apply (header_size_and_chunk false two_directives
           (text ["print(1)"]%string ++ [NUL])); by vm_compute.
Defined.

Lemma rest_of_line_split (s r : lstring) :
  rest_of_line s = Some r ->
  exists line, (LF ∉ line) /\ s = line ++ [LF] ++ r.
Proof.
  revert r. induction s as [|c s IH]; intros r; cbn [rest_of_line]; [done|].
  destruct (Ascii.eqb_spec c LF) as [->|Hne].
  - intros [= ->]. exists []. split; [by intros ?%elem_of_nil | done].
  - intros (line & Hline & ->)%IH. exists (c :: line). split; [|done].
    intros [?|?]%elem_of_cons; [congruence | done].
Qed.

Lemma match_directive_split (content rest : lstring) :
  match_directive content = Some rest ->
  exists line, (LF ∉ line) /\ content = str "#!" ++ line ++ [LF] ++ rest.
Proof.
  unfold match_directive. destruct content as [|c1 [|c2 s]]; [done..|].
  destruct (Ascii.eqb_spec c1 "#") as [->|]; [|done].
  destruct (Ascii.eqb_spec c2 "!") as [->|]; [|done]. cbn [andb].
  intros (line & Hline & ->)%rest_of_line_split. by exists line.
Qed.

(** X18. A text that does not start with [#!], or that has no line feed
    at all (the empty text, a text made of one unfinished line), goes into
    the header unchanged, whatever the policy is. *)
Theorem clean_content_unchanged (CMP0186 : bool) (CONTENT : lstring) :
  ~ (str "#!" `prefix_of` CONTENT) \/ LF ∉ CONTENT ->
  clean_content CMP0186 CONTENT = CONTENT.
Proof.
  intros H.
  assert (match_directive CONTENT = None) as Hnone.
  { destruct (match_directive CONTENT) as [rest|] eqn:E; [|done].
    apply match_directive_split in E as (line & _ & ->).
    destruct H as [H|H]; destruct H.
    - by eexists.
    - set_solver. }
  unfold clean_content. destruct CMP0186; [by rewrite Hnone|].
  destruct (length CONTENT); cbn [replace_loop]; [done | by rewrite Hnone].
Qed.

Lemma clean_content_unchanged_witness :
  clean_content false (str "#!/usr/bin/env lua") = str "#!/usr/bin/env lua".
Proof.
  apply (clean_content_unchanged false (str "#!/usr/bin/env lua")).
  right. apply (bool_decide_unpack _). by vm_compute.
Defined.

Lemma replace_loop_split (fuel : nat) (input : lstring) :
  (length input <= fuel)%nat ->
  exists removed,
    directive_lines removed /\ input = removed ++ replace_loop fuel input.
Proof.
  revert input. induction fuel as [|fuel IH]; intros input Hlen; cbn [replace_loop].
  - exists []. split; [constructor | done].
  - destruct (match_directive input) as [rest|] eqn:E.
    + pose proof (match_directive_spec input) as Hspec. rewrite E in Hspec.
      destruct Hspec as [_ Hshort].
      apply match_directive_split in E as (line & Hline & ->).
      destruct (IH rest) as (removed & Hrem & Hrest); [lia|].
      exists (str "#!" ++ line ++ [LF] ++ removed). split; [by constructor|].
      rewrite Hrest at 1. by rewrite <- !app_assoc.
    + exists []. split; [constructor | done].
Qed.

(** X19. With the old behaviour of the policy, which is the one in force
    for the script, the cleaned content is the text without a leading part
    made of whole lines that start with [#!], and it does not itself start
    with such a line: the bytes that follow the removed lines are kept as
    they are. *)
Theorem clean_content_old_split (CONTENT : lstring) :
  exists removed,
    directive_lines removed /\
    CONTENT = removed ++ clean_content false CONTENT /\
    match_directive (clean_content false CONTENT) = None.
Proof.
  unfold clean_content.
  destruct (replace_loop_split (length CONTENT) CONTENT) as (removed & Hrem & Heq);
    [done|].
  exists removed. split_and!; [done..|]. by apply replace_loop_fixpoint.
Qed.

(** X20. With the new behaviour of the policy one line at most is removed;
    the two behaviours give the same content unless the text starts with
    two lines that start with [#!]. *)
Theorem clean_content_policies_agree (CONTENT : lstring) :
  match_directive (clean_content true CONTENT) = None ->
  clean_content false CONTENT = clean_content true CONTENT.
Proof.
  rewrite clean_content_new. apply clean_content_old.
Qed.

Lemma clean_content_policies_agree_witness :
  clean_content false (text ["#!/usr/bin/env lua"; "print(1)"]%string) =
  clean_content true (text ["#!/usr/bin/env lua"; "print(1)"]%string).
Proof.
  apply (clean_content_policies_agree
           (text ["#!/usr/bin/env lua"; "print(1)"]%string)).
  by vm_compute.
Defined.

(** X21. The launcher that is built with the header generated from a text
    hands to the runtime, as its one chunk, the cleaned content of that
    text (of less than 2^32 bytes): the byte 0 that ends the array is not
    passed on. *)
Theorem embedded_launcher_loads_clean_content (MAJOR MINOR : lstring)
    (CMP0186 : bool) (CONTENT bytes : lstring) (w : world) (argv : list lstring) :
  runtime_created w ->
  (Z.of_nat (length (clean_content CMP0186 CONTENT)) < 2 ^ 32)%Z ->
  ldoc_source_bytes (clean_content CMP0186 CONTENT) = Some bytes ->
  exists st,
    List.filter is_load
      (trace_of (Embedded.main MAJOR MINOR bytes (ldoc_source_size bytes) w argv)) =
    [EvLoadPayload (BufferChunk (clean_content CMP0186 CONTENT)) st].
Proof.
  intros [[prefix Hp] Hn] Hlen Hbytes.
  rewrite ldoc_source_bytes_spec in Hbytes. injection Hbytes as <-.
  assert (take (ldoc_source_size (clean_content CMP0186 CONTENT ++ [NUL]))
               (clean_content CMP0186 CONTENT ++ [NUL]) =
          clean_content CMP0186 CONTENT) as Htake
    by (rewrite ldoc_source_size_spec by done; apply take_app_length).
  destruct (embedded_main_spec MAJOR MINOR (clean_content CMP0186 CONTENT ++ [NUL])
              (ldoc_source_size (clean_content CMP0186 CONTENT ++ [NUL])) w argv
              prefix Hp Hn) as (st & _ & ->).
  exists st. cbn [trace_of]. rewrite Htake.
  destruct (outcome_loads_runs w (embedded_outcome w)) as [Hl _]; [by right|].
  rewrite !List.filter_app, Hl.
  unfold bridge_report. by destruct (bridge_error w).
Qed.

Lemma embedded_launcher_loads_clean_content_witness :
  exists st,
    List.filter is_load
      (trace_of (Embedded.main (str "5") (str "4")
                   (text ["print(1)"]%string ++ [NUL])
                   (ldoc_source_size (text ["print(1)"]%string ++ [NUL]))
                   (world_with PayloadOk) [str "exe"])) =
    [EvLoadPayload
       (BufferChunk (clean_content true (text ["#!lua"; "print(1)"]%string))) st].
Proof.
  apply (embedded_launcher_loads_clean_content (str "5") (str "4") true
           (text ["#!lua"; "print(1)"]%string)
           (text ["print(1)"]%string ++ [NUL]) (world_with PayloadOk) [str "exe"]).
  - split; [by eexists | reflexivity].
  - by vm_compute.
  - by vm_compute.
Defined.

(** ** The conversion of the executable's path *)




